(** * go-client: the Nvim client, its batches and the MessagePack helpers

    A shallow embedding of [nvim/nvim.go] (the client, [Batch], [fixError],
    [decodeExt]/[encodeExt], [Close]) and of the [pack]/[unpack] helpers of
    package [msgpack], with the properties the specification states about
    them.

    Conventions.
    - A Go [int], [int64] or [uint64] is a [Z]; every conversion that can
      wrap is written out ([int8], [int16], [int32], [int64], [byte],
      [uint16], [uint32]).
    - A byte slice is a [list Z] whose elements are meant to lie in
      [0, 256); a Go [string] is a [string].
    - A Go [error] is an [option error]: [None] is [nil]. *)

From Stdlib Require Import ZArith Lia List Ascii String.
From stdpp Require Import base option list gmap strings pretty.
Import ListNotations.
Local Open Scope string_scope.
Local Open Scope list_scope.
Local Open Scope Z_scope.
Set Warnings "-register-all".

(** ** Machine integers *)

Abbreviation bytes := (list Z).

Definition byte (x : Z) : Z := x mod 256.
Definition uint16 (x : Z) : Z := x mod 2 ^ 16.
Definition uint32 (x : Z) : Z := x mod 2 ^ 32.
Definition uint64 (x : Z) : Z := x mod 2 ^ 64.

(** Two's complement reading of the low [w] bits of [x]. *)
Definition signed (w : Z) (x : Z) : Z :=
  let m := x mod 2 ^ w in
  if m <? 2 ^ (w - 1) then m else m - 2 ^ w.

Definition int8 : Z -> Z := signed 8.
Definition int16 : Z -> Z := signed 16.
Definition int32 : Z -> Z := signed 32.
Definition int64 : Z -> Z := signed 64.
(** A Go [int] has 64 bits on the platforms the client is built for. *)
Definition int : Z -> Z := signed 64.

(** [len(p)] as a Go [int]. *)
Definition len {A} (l : list A) : Z := Z.of_nat (length l).

(** Big-endian bytes: [be k v] is the [k] low bytes of [v], most significant
    first; [be_value] reads them back. *)
Fixpoint be (k : nat) (v : Z) : bytes :=
  match k with
  | O => []
  | S k' => byte (Z.shiftr v (8 * Z.of_nat k')) :: be k' v
  end.

Definition be_value (p : bytes) : Z :=
  fold_left (fun acc b => acc * 256 + b) p 0.

(** The bytes of a Go string, and back. *)
Definition byte_of_ascii (c : ascii) : Z := Z.of_N (N_of_ascii c).
Definition ascii_of_byte (b : Z) : ascii := ascii_of_N (Z.to_N (byte b)).

Fixpoint bytes_of_string (s : string) : bytes :=
  match s with
  | EmptyString => []
  | String c s' => byte_of_ascii c :: bytes_of_string s'
  end.

Fixpoint string_of_bytes (p : bytes) : string :=
  match p with
  | [] => EmptyString
  | b :: p' => String (ascii_of_byte b) (string_of_bytes p')
  end.

(** ** Values and errors *)

(** The argument of [nvim_call_atomic] (nvim.go): the number of calls and
    their encoded pairs. *)
Record batchArg : Type := { n : Z; p : bytes }.

(** The Go values that travel as call arguments, results and error values
    (an [interface{}] in the source). [VSlice None] is the nil
    [[]interface{}], [VSlice (Some [])] the empty one; [VBatchArg] is a
    [*batchArg]; [VChan] stands for the Go values the codec has no encoding
    for (channels, functions). A [float64] is its IEEE 754 bit pattern. *)
Inductive value : Type :=
| VNil
| VBool (b : bool)
| VInt64 (n : Z)
| VUint64 (n : Z)
| VFloat64 (bits : Z)
| VString (s : string)
| VBytes (p : bytes)
| VSlice (a : option (list value))
| VBatchArg (a : batchArg)
| VChan.

(** [errors.New] and [fmt.Errorf] give an [ErrorString]; [rpc.Error] carries
    the error value the peer sent; [BatchError] is the type of [nvim.go]. *)
Inductive error : Type :=
| ErrorString (msg : string)
| RpcError (Value : value)
| BatchError (Index : Z) (Err : error).

(** ** Package msgpack: the value codec *)

Module Msgpack.

(** *** Writing

    An encoder operation appends bytes to the stream and returns an error:
    [Enc] is the pair of the bytes written and the error returned. *)
Definition Enc : Type := bytes * option error.

Definition wrote (p : bytes) : Enc := (p, None).
Definition failed (msg : string) : Enc := ([], Some (ErrorString msg)).

(** [a; if err != nil return err; b]. *)
Definition andThen (a b : Enc) : Enc :=
  match a with
  | (p, Some e) => (p, Some e)
  | (p, None) => (p ++ b.1, b.2)
  end.
Infix ">>" := andThen (at level 61, left associativity).

(** A call whose returned error the caller drops. *)
Definition ignoring (a : Enc) : Enc := (a.1, None).

(** Modelled from the spec: the [Encoder] of package msgpack is not among
    the sources. These are the MessagePack wire forms the specification
    names (section 4.1): integers over 1/2/4/8-byte widths with the small
    integer fast paths and the shortest encoding on write; floats; strings
    and binaries with 8/16/32-bit length prefixes, smallest form that fits;
    array and map length headers; extensions as a type tag and a payload. *)
Definition PackNil : Enc := wrote [0xc0].

Definition PackBool (b : bool) : Enc := wrote [if b then 0xc3 else 0xc2].

Definition PackUint (v : Z) : Enc :=
  if v <=? 0x7f then wrote [v]
  else if v <=? 0xff then wrote (0xcc :: be 1 v)
  else if v <=? 0xffff then wrote (0xcd :: be 2 v)
  else if v <=? 0xffffffff then wrote (0xce :: be 4 v)
  else wrote (0xcf :: be 8 v).

Definition PackInt (v : Z) : Enc :=
  if 0 <=? v then PackUint v
  else if -32 <=? v then wrote [byte v]
  else if -0x80 <=? v then wrote (0xd0 :: be 1 v)
  else if -0x8000 <=? v then wrote (0xd1 :: be 2 v)
  else if -0x80000000 <=? v then wrote (0xd2 :: be 4 v)
  else wrote (0xd3 :: be 8 v).

Definition PackFloat (bits : Z) : Enc := wrote (0xcb :: be 8 bits).

Definition PackArrayLen (n : Z) : Enc :=
  if n <? 0 then failed "msgpack: length out of range"
  else if n <=? 15 then wrote [0x90 + n]
  else if n <=? 0xffff then wrote (0xdc :: be 2 n)
  else if n <=? 0xffffffff then wrote (0xdd :: be 4 n)
  else failed "msgpack: length out of range".

Definition PackMapLen (n : Z) : Enc :=
  if n <? 0 then failed "msgpack: length out of range"
  else if n <=? 15 then wrote [0x80 + n]
  else if n <=? 0xffff then wrote (0xde :: be 2 n)
  else if n <=? 0xffffffff then wrote (0xdf :: be 4 n)
  else failed "msgpack: length out of range".

Definition PackString (s : string) : Enc :=
  let p := bytes_of_string s in
  let n := len p in
  if n <=? 31 then wrote ((0xa0 + n) :: p)
  else if n <=? 0xff then wrote (0xd9 :: be 1 n ++ p)
  else if n <=? 0xffff then wrote (0xda :: be 2 n ++ p)
  else if n <=? 0xffffffff then wrote (0xdb :: be 4 n ++ p)
  else failed "msgpack: length out of range".

Definition PackBinary (p : bytes) : Enc :=
  let n := len p in
  if n <=? 0xff then wrote (0xc4 :: be 1 n ++ p)
  else if n <=? 0xffff then wrote (0xc5 :: be 2 n ++ p)
  else if n <=? 0xffffffff then wrote (0xc6 :: be 4 n ++ p)
  else failed "msgpack: length out of range".

Definition PackExtension (kind : Z) (data : bytes) : Enc :=
  let n := len data in
  if n =? 1 then wrote (0xd4 :: byte kind :: data)
  else if n =? 2 then wrote (0xd5 :: byte kind :: data)
  else if n =? 4 then wrote (0xd6 :: byte kind :: data)
  else if n =? 8 then wrote (0xd7 :: byte kind :: data)
  else if n =? 16 then wrote (0xd8 :: byte kind :: data)
  else if n <=? 0xff then wrote (0xc7 :: be 1 n ++ byte kind :: data)
  else if n <=? 0xffff then wrote (0xc8 :: be 2 n ++ byte kind :: data)
  else if n <=? 0xffffffff then wrote (0xc9 :: be 4 n ++ byte kind :: data)
  else failed "msgpack: length out of range".

(** [PackRaw] copies bytes that are MessagePack already. *)
Definition PackRaw (p : bytes) : Enc := wrote p.

(** *** Reading

    Modelled from the spec: the [Decoder] of package msgpack is not among the
    sources. [Unpack] reads the header of the next value and exposes its
    type; the accessors below give its content (section 4.1, a pull-style
    decoder). Composite members are not decoded recursively: an array or map
    header is a value of its own. *)
Inductive Type_ : Type :=
| Invalid | Nil | Bool | Int | Uint | Float | ArrayLen | MapLen
| String_ | Binary | Extension.

(** The decoder once [Unpack] returned: the type of the current value, its
    scalar content as 64 bits, its bytes, and the extension tag. *)
Record Decoder : Type := mkDecoder {
  dec_t : Type_;
  dec_n : Z;
  dec_p : bytes;
  dec_extension : Z
}.

Definition scalar (t : Type_) (v : Z) : Decoder := mkDecoder t (uint64 v) [] 0.

Definition DType (d : Decoder) : Type_ := dec_t d.
Definition DBytes (d : Decoder) : bytes := dec_p d.
Definition DString (d : Decoder) : string := string_of_bytes (dec_p d).
Definition DExtension (d : Decoder) : Z := dec_extension d.

Inductive UnpackResult : Type :=
| EOF                                   (* io.EOF: the input is exhausted *)
| UnpackError (e : error)
| Unpacked (d : Decoder) (rest : bytes).

Definition ErrUnexpectedEOF : error := ErrorString "unexpected EOF".

(** [k] bytes read as a big-endian unsigned number. *)
Definition read_be (k : nat) (q : bytes) : option (Z * bytes) :=
  if (k <=? length q)%nat then Some (be_value (firstn k q), skipn k q) else None.

(** [cnt] payload bytes. *)
Definition read_bytes (cnt : Z) (q : bytes) : option (bytes * bytes) :=
  if cnt <=? len q then Some (firstn (Z.to_nat cnt) q, skipn (Z.to_nat cnt) q)
  else None.

Definition unpack_scalar (t : Type_) (conv : Z -> Z) (k : nat) (q : bytes) : UnpackResult :=
  match read_be k q with
  | Some (v, rest) => Unpacked (scalar t (conv v)) rest
  | None => UnpackError ErrUnexpectedEOF
  end.

Definition unpack_payload (t : Type_) (ext : Z) (cnt : Z) (q : bytes) : UnpackResult :=
  match read_bytes cnt q with
  | Some (d, rest) => Unpacked (mkDecoder t cnt d ext) rest
  | None => UnpackError ErrUnexpectedEOF
  end.

(** A payload whose length is a [k]-byte prefix. *)
Definition unpack_sized (t : Type_) (k : nat) (q : bytes) : UnpackResult :=
  match read_be k q with
  | Some (cnt, rest) => unpack_payload t 0 cnt rest
  | None => UnpackError ErrUnexpectedEOF
  end.

(** An extension: the type tag, a signed byte, precedes the payload. *)
Definition unpack_ext (cnt : Z) (q : bytes) : UnpackResult :=
  match q with
  | tag :: rest => unpack_payload Extension (int8 tag) cnt rest
  | [] => UnpackError ErrUnexpectedEOF
  end.

Definition unpack_ext_sized (k : nat) (q : bytes) : UnpackResult :=
  match read_be k q with
  | Some (cnt, rest) => unpack_ext cnt rest
  | None => UnpackError ErrUnexpectedEOF
  end.

(** A single precision bit pattern as the double of the same value. *)
Definition float32_to_float64_bits (x : Z) : Z :=
  let s := Z.shiftl (Z.land (Z.shiftr x 31) 1) 63 in
  let e := Z.land (Z.shiftr x 23) 0xff in
  let m := Z.land x 0x7fffff in
  if e =? 0 then
    if m =? 0 then s
    else
      let h := Z.log2 m in
      Z.lor s (Z.lor (Z.shiftl (h - 149 + 1023) 52) (Z.shiftl (m - 2 ^ h) (52 - h)))
  else if e =? 0xff then
    Z.lor s (Z.lor (Z.shiftl 0x7ff 52)
                   (Z.lor (Z.shiftl m 29) (if m =? 0 then 0 else 2 ^ 51)))
  else Z.lor s (Z.lor (Z.shiftl (e - 127 + 1023) 52) (Z.shiftl m 29)).

Definition Unpack (q : bytes) : UnpackResult :=
  match q with
  | [] => EOF
  | c :: q' =>
      if c <=? 0x7f then Unpacked (scalar Int c) q'
      else if c <=? 0x8f then Unpacked (scalar MapLen (c - 0x80)) q'
      else if c <=? 0x9f then Unpacked (scalar ArrayLen (c - 0x90)) q'
      else if c <=? 0xbf then unpack_payload String_ 0 (c - 0xa0) q'
      else if c =? 0xc0 then Unpacked (scalar Nil 0) q'
      else if c =? 0xc1 then UnpackError (ErrorString "msgpack: unknown format")
      else if c =? 0xc2 then Unpacked (scalar Bool 0) q'
      else if c =? 0xc3 then Unpacked (scalar Bool 1) q'
      else if c =? 0xc4 then unpack_sized Binary 1 q'
      else if c =? 0xc5 then unpack_sized Binary 2 q'
      else if c =? 0xc6 then unpack_sized Binary 4 q'
      else if c =? 0xc7 then unpack_ext_sized 1 q'
      else if c =? 0xc8 then unpack_ext_sized 2 q'
      else if c =? 0xc9 then unpack_ext_sized 4 q'
      else if c =? 0xca then unpack_scalar Float float32_to_float64_bits 4 q'
      else if c =? 0xcb then unpack_scalar Float id 8 q'
      else if c =? 0xcc then unpack_scalar Uint id 1 q'
      else if c =? 0xcd then unpack_scalar Uint id 2 q'
      else if c =? 0xce then unpack_scalar Uint id 4 q'
      else if c =? 0xcf then unpack_scalar Uint id 8 q'
      else if c =? 0xd0 then unpack_scalar Int int8 1 q'
      else if c =? 0xd1 then unpack_scalar Int int16 2 q'
      else if c =? 0xd2 then unpack_scalar Int int32 4 q'
      else if c =? 0xd3 then unpack_scalar Int int64 8 q'
      else if c =? 0xd4 then unpack_ext 1 q'
      else if c =? 0xd5 then unpack_ext 2 q'
      else if c =? 0xd6 then unpack_ext 4 q'
      else if c =? 0xd7 then unpack_ext 8 q'
      else if c =? 0xd8 then unpack_ext 16 q'
      else if c =? 0xd9 then unpack_sized String_ 1 q'
      else if c =? 0xda then unpack_sized String_ 2 q'
      else if c =? 0xdb then unpack_sized String_ 4 q'
      else if c =? 0xdc then unpack_scalar ArrayLen id 2 q'
      else if c =? 0xdd then unpack_scalar ArrayLen id 4 q'
      else if c =? 0xde then unpack_scalar MapLen id 2 q'
      else if c =? 0xdf then unpack_scalar MapLen id 4 q'
      else Unpacked (scalar Int (int8 c)) q'
  end.

(** [Unpack] reads the bytes [q] as the value [d], whatever follows them. *)
Definition header (q : bytes) (d : Decoder) : Prop :=
  forall rest, Unpack (q ++ rest) = Unpacked d rest.

End Msgpack.
Import Msgpack.

(** [batchArg.MarshalMsgPack] (nvim.go): the array header, whose error is
    dropped, then the raw payload. The conversion [int64(a.n)] is from an
    [int] of the same 64 bits and changes nothing. *)
Definition MarshalMsgPack (a : batchArg) : Enc :=
  ignoring (PackArrayLen (n a)) >> PackRaw (p a).

(** Modelled from the spec: [Encoder.Encode], the reflection-based encoder of
    package msgpack, is not among the sources. A slice is an array header
    followed by its members in order, and encoding stops at the first member
    that fails; the nil slice is written as nil; a value that implements the
    marshaler interface is written by its [MarshalMsgPack]. *)
Fixpoint Encode (v : value) : Enc :=
  match v with
  | VNil => PackNil
  | VBool b => PackBool b
  | VInt64 n => PackInt n
  | VUint64 n => PackUint n
  | VFloat64 f => PackFloat f
  | VString s => PackString s
  | VBytes p => PackBinary p
  | VSlice None => PackNil
  | VSlice (Some vs) =>
      PackArrayLen (len vs) >>
      (fix members (l : list value) : Enc :=
         match l with
         | [] => wrote []
         | x :: l' => Encode x >> members l'
         end) vs
  | VBatchArg a => MarshalMsgPack a
  | VChan => failed "msgpack: unsupported type"
  end.

(** ** Package msgpack: the [pack] and [unpack] helpers *)

Module Helpers.

(** The Go values the helpers take and give: [GInt] is an [int], [GInt64] an
    [int64], [GUint64] a [uint64], [GArrayLen] and [GMapLen] the [uint32]
    types [arrayLen] and [mapLen], [GExtension k d] the struct
    [extension{k, d}]. A [float64] is its bit pattern. *)
Inductive goval : Type :=
| GNil
| GBool (b : bool)
| GInt (i : Z)
| GInt64 (i : Z)
| GUint64 (u : Z)
| GFloat64 (bits : Z)
| GArrayLen (l : Z)
| GMapLen (l : Z)
| GString (s : string)
| GBytes (b : bytes)
| GExtension (k : Z) (d : string).

(** The type switch of [pack]: one encoder call per value. An [int] has no
    case and falls to [default]. *)
Definition pack1 (v : goval) : Enc :=
  match v with
  | GInt64 i => PackInt i
  | GUint64 u => PackUint u
  | GBool b => PackBool b
  | GFloat64 f => PackFloat f
  | GArrayLen l => PackArrayLen (int64 l)
  | GMapLen l => PackMapLen (int64 l)
  | GString s => PackString s
  | GBytes b => PackBinary b
  | GExtension k d => PackExtension k (bytes_of_string d)
  | GNil => PackNil
  | GInt _ => failed "no pack for type int"
  end.

(** [pack]: the loop over [vs], writing to [buf]; the first error ends it. *)
Fixpoint pack_from (buf : bytes) (vs : list goval) : error + bytes :=
  match vs with
  | [] => inr buf
  | v :: vs' =>
      match pack1 v with
      | (_, Some e) => inl e
      | (q, None) => pack_from (buf ++ q) vs'
      end
  end.

Definition pack (vs : list goval) : error + bytes := pack_from [] vs.









End Helpers.

(** ** Package nvim *)

(** [p[i]]; the source reads an index only behind a test of [len(p)]. *)
Definition at_ (q : bytes) (i : nat) : Z := nth i q 0.

Definition hexdigit (d : Z) : string :=
  String.substring (Z.to_nat d) 1 "0123456789abcdef".

(** The verb [%x] on a byte slice: two lower-case digits per byte. *)
Fixpoint hex (q : bytes) : string :=
  match q with
  | [] => ""
  | b :: q' => hexdigit (byte b / 16) +:+ hexdigit (byte b mod 16) +:+ hex q'
  end.

(** [decodeExt] decodes a MsgPack encoded number to a Go [int]. *)
Definition decodeExt (q : bytes) : Z * option error :=
  if (len q =? 1) && (at_ q 0 <=? 0x7f) then
    (int (at_ q 0), None)
  else if (len q =? 2) && (at_ q 0 =? 0xcc) then
    (int (at_ q 1), None)
  else if (len q =? 3) && (at_ q 0 =? 0xcd) then
    (int (Z.lor (uint16 (at_ q 2)) (uint16 (Z.shiftl (uint16 (at_ q 1)) 8))), None)
  else if (len q =? 5) && (at_ q 0 =? 0xce) then
    (int (Z.lor (Z.lor (Z.lor (uint32 (at_ q 4))
                              (uint32 (Z.shiftl (uint32 (at_ q 3)) 8)))
                       (uint32 (Z.shiftl (uint32 (at_ q 2)) 16)))
                (uint32 (Z.shiftl (uint32 (at_ q 1)) 24))), None)
  else if (len q =? 2) && (at_ q 0 =? 0xd0) then
    (int (int8 (at_ q 1)), None)
  else if (len q =? 3) && (at_ q 0 =? 0xd1) then
    (int (int16 (Z.lor (uint16 (at_ q 2)) (uint16 (Z.shiftl (uint16 (at_ q 1)) 8)))), None)
  else if (len q =? 5) && (at_ q 0 =? 0xd2) then
    (int (int32 (Z.lor (Z.lor (Z.lor (uint32 (at_ q 4))
                                     (uint32 (Z.shiftl (uint32 (at_ q 3)) 8)))
                              (uint32 (Z.shiftl (uint32 (at_ q 2)) 16)))
                       (uint32 (Z.shiftl (uint32 (at_ q 1)) 24)))), None)
  else if (len q =? 1) && (0xe0 <=? at_ q 0) then
    (int (int8 (at_ q 0)), None)
  else
    (0, Some (ErrorString ("go-client/nvim: error decoding extension bytes " +:+ hex q))).

(** [encodeExt] encodes [n] to MsgPack format. *)
Definition encodeExt (i : Z) : bytes :=
  [0xd2; byte (Z.shiftr i 24); byte (Z.shiftr i 16); byte (Z.shiftr i 8); byte i].

(** *** Memory and the endpoint *)

(** A result parameter is [nil] or a pointer to a variable of the caller;
    [heap] holds those variables. Two calls may name the same variable. *)
Abbreviation addr := nat.
Abbreviation heap := (gmap nat value).
Abbreviation target := (option nat).

(** The failure descriptor in the reply of [nvim_call_atomic]: the anonymous
    struct of [Execute]. *)
Record Failure : Type := { Index : Z; Type__ : Z; Message : string }.

(** The [result] struct of [Execute] once the call returned. *)
Record AtomicResult : Type := { Results : list value; Error : option Failure }.

Record Request : Type := { method : string; params : option (list value) }.

(** Modelled from the spec: [rpc.Endpoint] is not among the sources. An
    endpoint is given by what its peer makes a call return: an error (a
    transport failure or the [rpc.Error] of an error reply, before any result
    is decoded) or a reply, decoded into the result the caller passed, which
    is an ordinary result parameter for [Nvim.call] and the struct above for
    [Execute]; and by what closing it returns. *)
Record Endpoint : Type := {
  ep_Call : Request -> error + value;
  ep_CallAtomic : Request -> error + AtomicResult;
  ep_Close : option error
}.

(** Decoding one result into a result parameter. *)
Definition store (t : target) (r : value) (h : heap) : heap :=
  match t with
  | Some a => <[a := r]> h
  | None => h
  end.

(** Modelled from the spec: decoding the [Results] array of the reply into
    [b.results] is done by the decoder of package msgpack. Each delivered
    result is decoded into its matching result parameter, in order (section
    4.5); parameters past the last delivered result are not written. *)
Fixpoint store_results (rs : list value) (ts : list target) (h : heap) : heap :=
  match rs, ts with
  | r :: rs', t :: ts' => store_results rs' ts' (store t r h)
  | _, _ => h
  end.

(** What a function did: it returned, or it panicked. *)
Inductive outcome (A : Type) : Type :=
| Returned (a : A)
| Panicked (msg : string).
Arguments Returned {A} a.
Arguments Panicked {A} msg.

(** [b.sms[i]]: an index out of range panics. *)
Definition index_sms (l : list string) (i : Z) : outcome string :=
  if (i <? 0) || (len l <=? i) then Panicked "index out of range"
  else match l !! Z.to_nat i with
       | Some sm => Returned sm
       | None => Panicked "index out of range"
       end.


Section Client.

(** The two error kinds of the Nvim API. The constants are declared in a
    file of the package that is not among the sources; [fixError] lists them
    as cases of one switch, so they differ. *)
Variables exceptionError validationError : Z.

(** The verb [%v] of package fmt on an error message value. *)
Variable Sprint : value -> string.

(** [case int64(c), uint64(c)]: an interface value equals the constant when
    it has that type and that number. *)
Definition is_kind (a : value) (c : Z) : bool :=
  match a with
  | VInt64 x | VUint64 x => x =? c
  | _ => false
  end.

Definition fixError (sm : string) (err : option error) : option error :=
  match err with
  | Some (RpcError (VSlice (Some [a0; a1]))) =>
      if is_kind a0 exceptionError then
        Some (ErrorString ("nvim:" +:+ sm +:+ " exception: " +:+ Sprint a1))
      else if is_kind a0 validationError then
        Some (ErrorString ("nvim:" +:+ sm +:+ " validation: " +:+ Sprint a1))
      else err
  | _ => err
  end.

(** *** Batch *)

(** The fields of [Batch]; [enc] writes to [buf], so an encoder call appends
    to [buf]. The endpoint is passed to [Execute]. *)
Record Batch : Type := mkBatch {
  buf : bytes;
  sms : list string;
  results : list target;
  err : option error
}.

Definition NewBatch : Batch := mkBatch [] [] [] None.

Definition emptyArgs : list value := [].

(** [Batch.call]. The variadic [args] is [None] when it is nil. *)
Definition call (b : Batch) (sm : string) (result : target)
    (args : option (list value)) : Batch :=
  match err b with
  | Some _ => b
  | None =>
      let args := match args with None => Some emptyArgs | Some _ => args end in
      let w := ignoring (PackArrayLen 2) >> ignoring (PackString sm)
               >> Encode (VSlice args) in
      mkBatch (buf b ++ w.1) (sms b ++ [sm]) (results b ++ [result]) w.2
  end.

(** The state [Execute] leaves: the requests it sent, the batch, the
    variables of the caller, and the error it returned. *)
Record Executed : Type := mkExecuted {
  sent : list Request;
  batch : Batch;
  memory : heap;
  returned : outcome (option error)
}.

(** The deferred function of [Execute]. *)
Definition reset (b : Batch) : Batch := mkBatch [] [] [] None.

(** The request of [Execute]: the verb and its single argument, a
    [&batchArg{n: len(b.sms), p: b.buf.Bytes()}]. *)
Definition atomic_request (b : Batch) : Request :=
  {| method := "nvim_call_atomic";
     params := Some [VBatchArg {| n := len (sms b); p := buf b |}] |}.

(** The body of [Execute], before the deferred function runs. *)
Definition Execute_body (ep : Endpoint) (b : Batch) (h : heap) : Executed :=
  match err b with
  | Some e => mkExecuted [] b h (Returned (Some e))
  | None =>
      let req := atomic_request b in
      match ep_CallAtomic ep req with
      | inl e => mkExecuted [req] b h (Returned (Some e))
      | inr result =>
          let h' := store_results (Results result) (results b) h in
          match Error result with
          | None => mkExecuted [req] b h' (Returned None)
          | Some e =>
              if (Index e <? 0) || (len (sms b) <=? Index e)
                 || (negb (Type__ e =? exceptionError)
                     && negb (Type__ e =? validationError))
              then
                mkExecuted [req] b h'
                  (Returned (Some (ErrorString
                     ("nvim:nvim_call_atomic " +:+ pretty (Index e) +:+ " "
                      +:+ pretty (Type__ e) +:+ " " +:+ Message e))))
              else
                let errorType :=
                  if Type__ e =? validationError then "validation" else "exception" in
                mkExecuted [req] b h'
                  match index_sms (sms b) (Index e) with
                  | Returned sm =>
                      Returned (Some (BatchError (Index e)
                        (ErrorString ("nvim:" +:+ sm +:+ " " +:+ errorType +:+ ": "
                                      +:+ Message e))))
                  | Panicked msg => Panicked msg
                  end
          end
      end
  end.

(** [Execute] executes the API function calls in the batch. *)
Definition Execute (ep : Endpoint) (b : Batch) (h : heap) : Executed :=
  let r := Execute_body ep b h in
  mkExecuted (sent r) (reset (batch r)) (memory r) (returned r).

(** *** The method wrappers *)

(** [Nvim.call]: the request goes to the endpoint, the result into the
    result parameter, and the error through [fixError]. *)
Definition Nvim_call (ep : Endpoint) (sm : string) (result : target)
    (args : option (list value)) (h : heap) : Request * heap * option error :=
  let req := {| method := sm; params := args |} in
  match ep_Call ep req with
  | inl e => (req, h, fixError sm (Some e))
  | inr r => (req, store result r h, fixError sm None)
  end.

Definition Nvim_Call (ep : Endpoint) (fname : string) (result : target)
    (args : option (list value)) (h : heap) :=
  let args := match args with None => Some [] | Some _ => args end in
  Nvim_call ep "nvim_call_function" result (Some [VString fname; VSlice args]) h.

Definition Batch_Call (b : Batch) (fname : string) (result : target)
    (args : option (list value)) : Batch :=
  let args := match args with None => Some [] | Some _ => args end in
  call b "nvim_call_function" result (Some [VString fname; VSlice args]).

Definition Nvim_CallDict (ep : Endpoint) (dict : option (list value)) (fname : string)
    (result : target) (args : option (list value)) (h : heap) :=
  let args := match args with None => Some [] | Some _ => args end in
  Nvim_call ep "nvim_call_dict_function" result
    (Some [VString fname; VSlice dict; VSlice args]) h.

Definition Batch_CallDict (b : Batch) (dict : option (list value)) (fname : string)
    (result : target) (args : option (list value)) : Batch :=
  let args := match args with None => Some [] | Some _ => args end in
  call b "nvim_call_dict_function" result
    (Some [VString fname; VSlice dict; VSlice args]).

Definition Nvim_ExecuteLua (ep : Endpoint) (code : string) (result : target)
    (args : option (list value)) (h : heap) :=
  let args := match args with None => Some [] | Some _ => args end in
  Nvim_call ep "nvim_execute_lua" result (Some [VString code; VSlice args]) h.

Definition Batch_ExecuteLua (b : Batch) (code : string) (result : target)
    (args : option (list value)) : Batch :=
  let args := match args with None => Some [] | Some _ => args end in
  call b "nvim_execute_lua" result (Some [VString code; VSlice args]).

(** *** Sequences of calls *)

(** One call queued on a batch: [b.call(sm, result, args...)]. The exported
    wrappers above queue calls of this form. *)
Record Queued : Type := { q_sm : string; q_result : target; q_args : option (list value) }.

Definition queue (b : Batch) (c : Queued) : Batch :=
  call b (q_sm c) (q_result c) (q_args c).

Definition queue_all (b : Batch) (cs : list Queued) : Batch := fold_left queue cs b.

(** The arguments [call] encodes: the empty list for a nil [args]. *)
Definition args_of (c : Queued) : list value :=
  match q_args c with None => [] | Some a => a end.

(** The wire form of the batch as the specification words it (section 6): a
    pair is a two-element array of the method name and the array of the
    arguments; the argument of [nvim_call_atomic] is an array header with
    the number of pairs, followed by the pairs. *)
Definition pair_bytes (c : Queued) : bytes :=
  [0x92] ++ (PackString (q_sm c)).1
  ++ (PackArrayLen (len (args_of c))).1 ++ concat (map (fun a => (Encode a).1) (args_of c)).

Definition atomic_bytes (cs : list Queued) : bytes :=
  (PackArrayLen (len cs)).1 ++ concat (map pair_bytes cs).

(** An error value [[kind, message]] is an application error when its kind
    is one of the two kinds of the API. *)
Definition is_application_error (e : option error) : bool :=
  match e with
  | Some (RpcError (VSlice (Some [a0; a1]))) =>
      is_kind a0 exceptionError || is_kind a0 validationError
  | _ => false
  end.

End Client.

(** *** Close *)

(** What the child process does once the endpoint is closed: it exits by
    itself within the grace period, or it stays until it is killed. [status]
    is what [cmd.Wait] then returns. *)
Inductive Child : Type :=
| Exits (status : option error)
| Lingers (status : option error).

(** [exec.Cmd]: [Process] is nil until the command is started. *)
Record Cmd : Type := { Process : option Child }.

(** What a receive on [serveCh] gives within the ten seconds of the
    [select]: the error [Serve] returned (nil also when the channel is
    closed), or nothing. *)
Inductive ServeCh : Type :=
| Reports (e : option error)
| Silent.

Record Nvim : Type := {
  ep : Endpoint;
  cmd : option Cmd;
  serveCh : option ServeCh
}.

(** The steps of [Close], in the order they happen. Durations are in
    seconds. *)
Inductive Event : Type :=
| AfterFunc (d : Z)        (* the timer that kills the child is started *)
| EpClose                  (* v.ep.Close() *)
| Kill                     (* the timer fired: v.cmd.Process.Kill() *)
| Wait                     (* v.cmd.Wait() returned *)
| ReceiveServe             (* errServe = <-v.serveCh *)
| After (d : Z)            (* <-time.After: Serve did not report in time *)
| Stop.                    (* the deferred t.Stop() *)

(** [if err == nil { err = e }]. *)
Definition orElse (err e : option error) : option error :=
  match err with
  | None => e
  | Some _ => err
  end.

(** [cmd.Wait()] under the kill timer of [Close]. *)
Definition cmd_Wait (c : Cmd) : list Event * option error :=
  match Process c with
  | None => ([Wait], Some (ErrorString "exec: not started"))
  | Some (Exits status) => ([Wait], status)
  | Some (Lingers status) => ([Kill; Wait], status)
  end.

(** [Close] releases the resources used by the client. *)
Definition Close (v : Nvim) : list Event * option error :=
  let timer :=
    match cmd v with
    | Some c => if Process c is Some _ then true else false
    | None => false
    end in
  let t0 := if timer then [AfterFunc 10] else [] in
  let err := ep_Close (ep v) in
  let t1 := t0 ++ [EpClose] in
  let '(t2, err) :=
    match cmd v with
    | Some c => let '(evs, errWait) := cmd_Wait c in (t1 ++ evs, orElse err errWait)
    | None => (t1, err)
    end in
  let '(t3, err) :=
    match serveCh v with
    | Some ch =>
        let '(evs, errServe) :=
          match ch with
          | Reports e => ([ReceiveServe], e)
          | Silent => ([After 10], Some (ErrorString "nvim: Serve did not exit"))
          end in
        (t2 ++ evs, orElse err errServe)
    | None => (t2, err)
    end in
  (t3 ++ (if timer then [Stop] else []), err).

(** The errors of the three steps of [Close], and the first of a list of
    errors that is not nil. *)
Definition child_status (c : Child) : option error :=
  match c with Exits status | Lingers status => status end.

Definition serve_error (ch : ServeCh) : option error :=
  match ch with
  | Reports e => e
  | Silent => Some (ErrorString "nvim: Serve did not exit")
  end.

Fixpoint first_error (es : list (option error)) : option error :=
  match es with
  | [] => None
  | Some e :: _ => Some e
  | None :: es' => first_error es'
  end.

(** The steps of [Close] that apply to a client, with their errors: closing
    the endpoint; waiting for the child process, when the client has one;
    waiting for [Serve], when the client started it. *)
Definition Close_errors (v : Nvim) : list (option error) :=
  [ep_Close (ep v)]
  ++ match cmd v with Some c => [(cmd_Wait c).2] | None => [] end
  ++ match serveCh v with Some ch => [serve_error ch] | None => [] end.

(** Whether the client has a child process that was started: the test
    [v.cmd != nil && v.cmd.Process != nil] of [Close]. *)
Definition child_started (v : Nvim) : bool :=
  match cmd v with
  | Some c => if Process c is Some _ then true else false
  | None => false
  end.

(** ** More of package nvim *)

(** *** Error messages *)

Section Messages.

(** The message of an [rpc.Error], whose [Error] method is not among the
    sources. *)
Variable rpc_Error : value -> string.

(** The method [Error] of an error; for a [BatchError] it is
    [BatchError.Error], which gives the message of the error it wraps. *)
Fixpoint error_Error (e : error) : string :=
  match e with
  | ErrorString msg => msg
  | RpcError v => rpc_Error v
  | BatchError _ e' => error_Error e'
  end.

End Messages.

(** *** ChannelID *)

Section ChannelID.

(** What the call of [nvim_get_api_info] leaves in [info.ChannelID]: the
    number the decoder of package msgpack, which is not among the sources,
    takes from the reply, or what is left there when the call fails. *)
Variable info_ChannelID : error + value -> Z.

(** [Nvim.ChannelID]. The field [channelID] of the client is the argument
    and the second component of the result; the first component is the
    requests sent and the third the value returned. The error of the call is
    dropped, as in the source. *)
Definition ChannelID (e : Endpoint) (channelID : Z) : list Request * Z * Z :=
  if negb (channelID =? 0) then ([], channelID, channelID)
  else
    let req := {| method := "nvim_get_api_info"; params := None |} in
    let channelID := info_ChannelID (ep_Call e req) in
    ([req], channelID, channelID).

(** Calls of [ChannelID] one after the other, each against what the peer
    answers at that time: the requests sent, the field at the end and the
    values returned. *)
Fixpoint ChannelID_calls (es : list Endpoint) (channelID : Z)
  : list Request * Z * list Z :=
  match es with
  | [] => ([], channelID, [])
  | e :: es' =>
      let '(reqs, channelID', r) := ChannelID e channelID in
      let '(reqs', last, rs) := ChannelID_calls es' channelID' in
      (reqs ++ reqs', last, r :: rs)
  end.

End ChannelID.

(** *** Extension values *)

(** A [*msgpack.DecodeConvertError]: the type found on the wire and the Go
    type asked for. *)
Record DecodeConvertError (T : Type) : Type :=
  { SrcType : Type_; DestType : T }.
Arguments SrcType {T} _.
Arguments DestType {T} _.


(** The test extension of package msgpack: [testExtension1] holds [data];
    [MarshalMsgPack] writes it as the extension 1, [UnmarshalMsgPack] takes
    it from an extension 1 and refuses any other value, which it skips. *)
Module TestExtension.

Definition MarshalMsgPack (data : bytes) : Enc := PackExtension 1 data.

Definition UnmarshalMsgPack {T} (data : bytes) (dec : Decoder) (x : T)
  : bytes * option (DecodeConvertError T) * bool :=
  if negb (match DType dec with Extension => true | _ => false end)
     || negb (DExtension dec =? 1)
  then (data, Some {| SrcType := DType dec; DestType := x |}, true)
  else (DBytes dec, None, false).

End TestExtension.

(** *** Making a client *)

Module Connect.
Section Connect.

(** A [context.Context], a logging function and a [net.Conn], with the
    background context and [log.Printf]. *)
Variables Context Logf Conn : Type.
Variable Background : Context.
Variable log_Printf : Logf.

(** [childProcessOptions]. A nil [env] is [None]: the child then gets the
    environment of the current process. The arguments are passed on with
    [cpos.args...], which does not tell a nil slice from an empty one. *)
Record childProcessOptions : Type := {
  args : list string;
  command : string;
  ctx : Context;
  dir : string;
  env : option (list string);
  logf : Logf;
  serve : bool
}.

(** A [ChildProcessOption] holds a function that changes the options. *)
Definition ChildProcessOption : Type := childProcessOptions -> childProcessOptions.

Definition ChildProcessArgs (a : list string) : ChildProcessOption :=
  fun cpos => {| args := a; command := command cpos; ctx := ctx cpos; dir := dir cpos;
                 env := env cpos; logf := logf cpos; serve := serve cpos |}.

Definition ChildProcessCommand (c : string) : ChildProcessOption :=
  fun cpos => {| args := args cpos; command := c; ctx := ctx cpos; dir := dir cpos;
                 env := env cpos; logf := logf cpos; serve := serve cpos |}.

Definition ChildProcessContext (c : Context) : ChildProcessOption :=
  fun cpos => {| args := args cpos; command := command cpos; ctx := c; dir := dir cpos;
                 env := env cpos; logf := logf cpos; serve := serve cpos |}.

Definition ChildProcessDir (d : string) : ChildProcessOption :=
  fun cpos => {| args := args cpos; command := command cpos; ctx := ctx cpos; dir := d;
                 env := env cpos; logf := logf cpos; serve := serve cpos |}.

Definition ChildProcessEnv (e : option (list string)) : ChildProcessOption :=
  fun cpos => {| args := args cpos; command := command cpos; ctx := ctx cpos; dir := dir cpos;
                 env := e; logf := logf cpos; serve := serve cpos |}.

Definition ChildProcessServe (b : bool) : ChildProcessOption :=
  fun cpos => {| args := args cpos; command := command cpos; ctx := ctx cpos; dir := dir cpos;
                 env := env cpos; logf := logf cpos; serve := b |}.

Definition ChildProcessLogf (l : Logf) : ChildProcessOption :=
  fun cpos => {| args := args cpos; command := command cpos; ctx := ctx cpos; dir := dir cpos;
                 env := env cpos; logf := l; serve := serve cpos |}.

(** The options [NewChildProcess] starts from, and the loop that applies the
    options of the caller in order. *)
Definition default_cpos : childProcessOptions :=
  {| args := []; command := "nvim"; ctx := Background; dir := ""; env := None;
     logf := log_Printf; serve := true |}.

Definition apply_options (options : list ChildProcessOption) : childProcessOptions :=
  fold_left (fun cpos cpo => cpo cpos) options default_cpos.

(** What the system does for [NewChildProcess]: the results of
    [cmd.StdinPipe], [cmd.StdoutPipe] and [cmd.Start], what [New] returns
    for the logging function it is given, and, for [Close] later, what the
    child and [Serve] do. *)
Record System : Type := {
  StdinPipe : option error;
  StdoutPipe : option error;
  Start : option error;
  New : Logf -> error + Endpoint;
  child : Child;
  serving : ServeCh
}.

(** What [NewChildProcess] does besides returning: it closes the stdin pipe,
    starts the command, starts the goroutine of [Serve]. *)
Inductive Step : Type :=
| CloseStdin
| StartCommand (ctx : Context) (command : string) (args : list string)
    (env : option (list string)) (dir : string)
| StartServe.

(** [NewChildProcess]. [New] is called with [v, _ := New(...)]: when it
    fails [v] is nil and the assignment [v.cmd = cmd] panics. *)
Definition NewChildProcess (options : list ChildProcessOption) (w : System)
  : list Step * outcome (option Nvim * option error) :=
  let cpos := apply_options options in
  match StdinPipe w with
  | Some e => ([], Returned (None, Some e))
  | None =>
      match StdoutPipe w with
      | Some e => ([CloseStdin], Returned (None, Some e))
      | None =>
          let started :=
            StartCommand (ctx cpos) (command cpos) (args cpos) (env cpos) (dir cpos) in
          match Start w with
          | Some e => ([started], Returned (None, Some e))
          | None =>
              match New w (logf cpos) with
              | inl _ => ([started], Panicked "nil pointer dereference")
              | inr e =>
                  if serve cpos then
                    ([started; StartServe],
                     Returned (Some {| ep := e;
                                       cmd := Some {| Process := Some (child w) |};
                                       serveCh := Some (serving w) |}, None))
                  else
                    ([started],
                     Returned (Some {| ep := e;
                                       cmd := Some {| Process := Some (child w) |};
                                       serveCh := None |}, None))
              end
          end
      end
  end.

(** [EmbedOptions]; a nil [Env] is [None]. *)
Record EmbedOptions : Type := {
  Args : list string;
  Dir : string;
  Env : option (list string);
  Path : string;
  EmbedLogf : option Logf
}.

(** [NewEmbedded]; a nil [options] is [None]. *)
Definition NewEmbedded (options : option EmbedOptions) (w : System)
  : list Step * outcome (option Nvim * option error) :=
  let options :=
    match options with
    | Some o => o
    | None => {| Args := []; Dir := ""; Env := None; Path := ""; EmbedLogf := None |}
    end in
  let path := if String.eqb (Path options) "" then "nvim" else Path options in
  NewChildProcess
    [ChildProcessArgs ("--embed" :: Args options);
     ChildProcessCommand path;
     ChildProcessEnv (Env options);
     ChildProcessDir (Dir options);
     ChildProcessServe false] w.

(** [dialOptions] and the options of [Dial]. *)
Record dialOptions : Type := {
  d_ctx : Context;
  d_logf : Logf;
  netDial : Context -> string -> string -> error + Conn;
  d_serve : bool
}.

Definition DialOption : Type := dialOptions -> dialOptions.

Definition DialContext (c : Context) : DialOption :=
  fun dos => {| d_ctx := c; d_logf := d_logf dos; netDial := netDial dos;
                d_serve := d_serve dos |}.

Definition DialNetDial (f : Context -> string -> string -> error + Conn) : DialOption :=
  fun dos => {| d_ctx := d_ctx dos; d_logf := d_logf dos; netDial := f;
                d_serve := d_serve dos |}.

Definition DialServe (b : bool) : DialOption :=
  fun dos => {| d_ctx := d_ctx dos; d_logf := d_logf dos; netDial := netDial dos;
                d_serve := b |}.

Definition DialLogf (l : Logf) : DialOption :=
  fun dos => {| d_ctx := d_ctx dos; d_logf := l; netDial := netDial dos;
                d_serve := d_serve dos |}.

(** [strings.Contains(address, ":")]. *)
Fixpoint contains_colon (address : string) : bool :=
  match address with
  | EmptyString => false
  | String c rest => Ascii.eqb c ":"%char || contains_colon rest
  end.

(** What [Dial] does to the network: it dials, and it may close the
    connection it got. *)
Inductive DialStep : Type :=
| Dialed (ctx : Context) (network address : string)
| ConnClose (c : Conn).

(** [Dial]. [DialContext_default] is the method of the [net.Dialer] that
    [Dial] declares; [new] is [New] on a connection, [serving] what [Serve]
    will do for [Close]. *)
Definition Dial (DialContext_default : Context -> string -> string -> error + Conn)
    (new : Conn -> Logf -> error + Endpoint) (serving : ServeCh)
    (address : string) (options : list DialOption)
  : list DialStep * (option Nvim * option error) :=
  let dos :=
    fold_left (fun dos do => do dos) options
      {| d_ctx := Background; d_logf := log_Printf;
         netDial := DialContext_default; d_serve := true |} in
  let network := if contains_colon address then "tcp" else "unix" in
  match netDial dos (d_ctx dos) network address with
  | inl e => ([Dialed (d_ctx dos) network address], (None, Some e))
  | inr c =>
      match new c (d_logf dos) with
      | inl e => ([Dialed (d_ctx dos) network address; ConnClose c], (None, Some e))
      | inr e =>
          ([Dialed (d_ctx dos) network address],
           (Some {| ep := e; cmd := None;
                    serveCh := if d_serve dos then Some serving else None |}, None))
      end
  end.

End Connect.
End Connect.

Arguments Connect.args {Context Logf} _.
Arguments Connect.command {Context Logf} _.
Arguments Connect.ctx {Context Logf} _.
Arguments Connect.dir {Context Logf} _.
Arguments Connect.env {Context Logf} _.
Arguments Connect.logf {Context Logf} _.
Arguments Connect.serve {Context Logf} _.
Arguments Connect.ChildProcessArgs {Context Logf} _ _.
Arguments Connect.ChildProcessCommand {Context Logf} _ _.
Arguments Connect.ChildProcessContext {Context Logf} _ _.
Arguments Connect.ChildProcessDir {Context Logf} _ _.
Arguments Connect.ChildProcessEnv {Context Logf} _ _.
Arguments Connect.ChildProcessServe {Context Logf} _ _.
Arguments Connect.ChildProcessLogf {Context Logf} _ _.
Arguments Connect.apply_options {Context Logf} _ _ _.
Arguments Connect.StdinPipe {Logf} _.
Arguments Connect.StdoutPipe {Logf} _.
Arguments Connect.Start {Logf} _.
Arguments Connect.New {Logf} _ _.
Arguments Connect.child {Logf} _.
Arguments Connect.serving {Logf} _.
Arguments Connect.CloseStdin {Context}.
Arguments Connect.StartCommand {Context} _ _ _ _ _.
Arguments Connect.StartServe {Context}.
Arguments Connect.NewChildProcess {Context Logf} _ _ _ _.
Arguments Connect.Args {Logf} _.
Arguments Connect.Dir {Logf} _.
Arguments Connect.Env {Logf} _.
Arguments Connect.Path {Logf} _.
Arguments Connect.EmbedLogf {Logf} _.
Arguments Connect.NewEmbedded {Context Logf} _ _ _ _.
Arguments Connect.d_ctx {Context Logf Conn} _.
Arguments Connect.d_logf {Context Logf Conn} _.
Arguments Connect.netDial {Context Logf Conn} _ _ _ _.
Arguments Connect.d_serve {Context Logf Conn} _.
Arguments Connect.DialContext {Context Logf Conn} _ _.
Arguments Connect.DialNetDial {Context Logf Conn} _ _.
Arguments Connect.DialServe {Context Logf Conn} _ _.
Arguments Connect.DialLogf {Context Logf Conn} _ _.
Arguments Connect.Dialed {Context Conn} _ _ _.
Arguments Connect.ConnClose {Context Conn} _.
Arguments Connect.Dial {Context Logf Conn} _ _ _ _ _ _ _.

(** ** A scenario

    The example of the specification (section 8): a batch of the calls
    [set], [bad-value] and [get], each with a result variable of its own,
    against a peer that gives a fixed reply. The error kinds are those of the
    Nvim API, 0 for an exception and 1 for a validation error. *)
Definition three_calls : list Queued :=
  [ {| q_sm := "set"; q_result := Some 0%nat; q_args := Some [VString "x"; VInt64 1] |};
    {| q_sm := "bad-value"; q_result := Some 1%nat; q_args := Some [VString "y"] |};
    {| q_sm := "get"; q_result := Some 2%nat; q_args := None |} ].

Definition defaults : heap :=
  <[0%nat := VNil]> (<[1%nat := VNil]> (<[2%nat := VInt64 7]> ∅)).

Definition peer (reply : error + AtomicResult) : Endpoint :=
  {| ep_Call := fun _ => inr VNil; ep_CallAtomic := fun _ => reply; ep_Close := None |}.

(** The second call fails validation; the result of the first is delivered. *)
Definition validation_failure : AtomicResult :=
  {| Results := [VString "ok"];
     Error := Some {| Index := 1; Type__ := 1; Message := "Invalid value" |} |}.

(** The reply reports a failure of a kind that is neither of the two. *)
Definition unknown_failure : AtomicResult :=
  {| Results := [VString "ok"];
     Error := Some {| Index := 1; Type__ := 2; Message := "Invalid value" |} |}.

(** A call one argument of which has no encoding. *)
Definition bad_call : Queued :=
  {| q_sm := "nvim_set_var"; q_result := None; q_args := Some [VString "x"; VChan] |}.

(** Two clients with a child process that exits when the endpoint is
    closed: one as [NewChildProcess] makes it, running [Serve] itself, and
    one made with [ChildProcessServe(false)] (as [NewEmbedded] does), whose
    [Serve] the application runs. *)
Definition serving_client : Nvim :=
  {| ep := peer (inr validation_failure);
     cmd := Some {| Process := Some (Exits None) |};
     serveCh := Some (Reports None) |}.

Definition embedded_client : Nvim :=
  {| ep := peer (inr validation_failure);
     cmd := Some {| Process := Some (Exits None) |};
     serveCh := None |}.

(** [%v] on the message of an error value, for messages that are strings. *)
Definition sprint_string (v : value) : string :=
  match v with VString s => s | _ => "" end.

(** A peer that answers [nvim_get_api_info] with the channel [c], and the
    number a decoder takes from such a reply. *)
Definition api_info_peer (c : Z) : Endpoint :=
  {| ep_Call := fun _ => inr (VSlice (Some [VInt64 c; VNil]));
     ep_CallAtomic := fun _ => inl (ErrorString "not a batch");
     ep_Close := None |}.

Definition first_number (r : error + value) : Z :=
  match r with
  | inr (VSlice (Some (VInt64 c :: _))) => c
  | _ => 0
  end.

(** * Properties *)

(** ** Arithmetic of bytes *)

Local Ltac euclid := Z.to_euclidean_division_equations; lia.

Lemma byte_range x : 0 <= byte x < 256.
Proof. unfold byte. euclid. Qed.

Lemma signed_small w x :
  0 < w -> - 2 ^ (w - 1) <= x < 2 ^ (w - 1) -> signed w (x mod 2 ^ w) = x.
Proof.
  intros Hw Hx. unfold signed.
  assert (Hp : 2 ^ w = 2 * 2 ^ (w - 1)).
  { rewrite <- Z.pow_succ_r by lia. f_equal. lia. }
  rewrite Z.mod_mod by lia.
  destruct (Z.ltb_spec (x mod 2 ^ w) (2 ^ (w - 1))) as [Hlt | Hge].
  - destruct (Z.le_gt_cases 0 x) as [Hpos | Hneg].
    + apply Z.mod_small. lia.
    + exfalso. assert (Hm : (x + 2 ^ w) mod 2 ^ w = x + 2 ^ w)
        by (apply Z.mod_small; lia).
      rewrite <- (Z.mul_1_l (2 ^ w)) in Hm at 1.
      rewrite Z.mod_add in Hm by lia. lia.
  - destruct (Z.le_gt_cases 0 x) as [Hpos | Hneg].
    + exfalso. rewrite Z.mod_small in Hge by lia. lia.
    + assert (Hm : (x + 2 ^ w) mod 2 ^ w = x + 2 ^ w)
        by (apply Z.mod_small; lia).
      rewrite <- (Z.mul_1_l (2 ^ w)) in Hm at 1.
      rewrite Z.mod_add in Hm by lia. lia.
Qed.

Lemma signed_id w x :
  0 < w -> - 2 ^ (w - 1) <= x < 2 ^ (w - 1) -> signed w x = x.
Proof.
  intros Hw Hx. rewrite <- (signed_small w x Hw Hx) at 2.
  unfold signed. now rewrite Z.mod_mod by lia.
Qed.

(** A byte below, anything shifted above: the bits do not meet. *)
Lemma lor_shiftl_add a b k :
  0 <= k -> 0 <= a < 2 ^ k -> Z.lor a (Z.shiftl b k) = a + b * 2 ^ k.
Proof.
  intros Hk Ha.
  rewrite <- Z.shiftl_mul_pow2 by lia.
  rewrite <- Z.lxor_lor, Z.add_nocarry_lxor; trivial.
  all: apply Z.bits_inj'; intros i Hi; rewrite Z.land_spec, Z.bits_0.
  all: destruct (Z.lt_ge_cases i k) as [Hlt | Hge].
  all: try (rewrite Z.shiftl_spec_low by lia; apply andb_false_r).
  all: rewrite <- (Z.mod_small a (2 ^ k)) by lia.
  all: rewrite Z.mod_pow2_bits_high by lia; reflexivity.
Qed.

(** ** Big-endian numbers *)

Lemma be_length k v : length (be k v) = k.
Proof. induction k as [| k IH]; simpl; [reflexivity | now rewrite IH]. Qed.

Lemma be_value_acc k v acc :
  fold_left (fun a b => a * 256 + b) (be k v) acc
  = acc * 2 ^ (8 * Z.of_nat k) + v mod 2 ^ (8 * Z.of_nat k).
Proof.
  revert acc. induction k as [| k IH]; intros acc.
  - simpl. rewrite Z.mod_1_r. lia.
  - cbn [be fold_left]. rewrite IH. unfold byte.
    rewrite Z.shiftr_div_pow2 by lia.
    replace (8 * Z.of_nat (S k)) with (8 * Z.of_nat k + 8) by lia.
    rewrite Z.pow_add_r by lia.
    assert (0 < 2 ^ (8 * Z.of_nat k)) by (apply Z.pow_pos_nonneg; lia).
    change (2 ^ 8) with 256.
    rewrite (Z.rem_mul_r v (2 ^ (8 * Z.of_nat k)) 256) by lia.
    lia.
Qed.

Lemma be_value_be k v : be_value (be k v) = v mod 2 ^ (8 * Z.of_nat k).
Proof. unfold be_value. rewrite be_value_acc. lia. Qed.

Lemma read_be_be k v rest :
  Msgpack.read_be k (be k v ++ rest) = Some (v mod 2 ^ (8 * Z.of_nat k), rest).
Proof.
  unfold Msgpack.read_be.
  rewrite length_app, be_length.
  destruct (Nat.leb_spec k (k + length rest)) as [_ | Hlt]; [| lia].
  rewrite <- (be_length k v) at 1 3.
  rewrite take_app_length, drop_app_length.
  now rewrite be_value_be.
Qed.

Lemma read_bytes_app (q rest : bytes) :
  Msgpack.read_bytes (len q) (q ++ rest) = Some (q, rest).
Proof.
  unfold Msgpack.read_bytes, len.
  rewrite length_app, Nat2Z.id.
  destruct (Z.leb_spec (Z.of_nat (length q)) (Z.of_nat (length q + length rest)))
    as [_ | Hlt]; [| lia].
  now rewrite take_app_length, drop_app_length.
Qed.

(** ** The extension payload *)

(** The four low bytes of [i], most significant first, put back together. *)
Lemma join32 i :
  Z.lor (Z.lor (Z.lor (uint32 (byte i))
                      (uint32 (Z.shiftl (uint32 (byte (Z.shiftr i 8))) 8)))
               (uint32 (Z.shiftl (uint32 (byte (Z.shiftr i 16))) 16)))
        (uint32 (Z.shiftl (uint32 (byte (Z.shiftr i 24))) 24))
  = i mod 2 ^ 32.
Proof.
  rewrite !Z.shiftr_div_pow2 by lia.
  pose proof (byte_range i) as H0.
  pose proof (byte_range (i / 2 ^ 8)) as H1.
  pose proof (byte_range (i / 2 ^ 16)) as H2.
  pose proof (byte_range (i / 2 ^ 24)) as H3.
  unfold uint32.
  rewrite !(Z.mod_small (byte _) (2 ^ 32)) by lia.
  rewrite !Z.shiftl_mul_pow2 by lia.
  rewrite !(Z.mod_small (byte _ * _) (2 ^ 32)) by lia.
  rewrite <- !Z.shiftl_mul_pow2 by lia.
  rewrite (lor_shiftl_add (byte i)) by lia.
  rewrite (lor_shiftl_add (byte i + _)) by lia.
  rewrite (lor_shiftl_add (byte i + _ + _)) by lia.
  unfold byte in *. euclid.
Qed.

Lemma encodeExt_be i : encodeExt i = 0xd2 :: be 4 i.
Proof. unfold encodeExt. cbn [be]. now rewrite Z.shiftr_0_r. Qed.

(** C8. For every [i] in the signed 32-bit range, [encodeExt i] is the five
    bytes [0xd2, b1, b2, b3, b4] that MessagePack reads as the signed 32-bit
    integer [i], and [decodeExt] of them returns [i] and no error. *)
Theorem decodeExt_encodeExt (i : Z) :
  - 2 ^ 31 <= i < 2 ^ 31 ->
  decodeExt (encodeExt i) = (i, None)
  /\ len (encodeExt i) = 5
  /\ at_ (encodeExt i) 0 = 0xd2
  /\ Unpack (encodeExt i) = Unpacked (scalar Int i) [].
Proof.
  intros Hi. repeat split.
  - unfold decodeExt, encodeExt, len, at_. cbn [length nth Z.of_nat].
    change (Z.of_nat 5) with 5. cbn [Z.eqb Pos.eqb andb].
    rewrite join32. unfold int32, int.
    rewrite (signed_small 32) by lia.
    now rewrite (signed_id 64) by lia.
  - rewrite encodeExt_be.
    change (Unpack (0xd2 :: be 4 i))
      with (unpack_scalar Int int32 4 (be 4 i)).
    unfold unpack_scalar.
    rewrite <- (app_nil_r (be 4 i)), read_be_be.
    unfold int32. change (8 * Z.of_nat 4) with 32.
    now rewrite (signed_small 32) by lia.
Qed.

(** The lower end of the range. *)
Lemma decodeExt_encodeExt_witness :
  - 2 ^ 31 <= - 2 ^ 31 < 2 ^ 31
  /\ decodeExt (encodeExt (- 2 ^ 31)) = (- 2 ^ 31, None)
  /\ len (encodeExt (- 2 ^ 31)) = 5
  /\ at_ (encodeExt (- 2 ^ 31)) 0 = 0xd2
  /\ Unpack (encodeExt (- 2 ^ 31)) = Unpacked (scalar Int (- 2 ^ 31)) [].
Proof.
  split; [lia |]. apply (decodeExt_encodeExt (- 2 ^ 31)). lia.
Defined.

(** ** The codec round trip *)

Lemma string_of_bytes_of_string s : string_of_bytes (bytes_of_string s) = s.
Proof.
  induction s as [| c s IH]; simpl; [reflexivity |].
  rewrite IH. f_equal.
  unfold ascii_of_byte, byte_of_ascii, byte.
  pose proof (N_ascii_bounded c) as Hc.
  rewrite Z.mod_small by lia.
  now rewrite N2Z.id, ascii_N_embedding.
Qed.

(** Case analysis on the comparisons of [Unpack] for a head byte that is
    known by its range only. *)
Local Ltac head_cases :=
  unfold Unpack;
  repeat match goal with
    | |- context [?a <=? ?b] => destruct (Z.leb_spec a b); try lia
    | |- context [?a =? ?b] => destruct (Z.eqb_spec a b); try lia
    end.



Lemma Unpack_fixarray c q :
  0x90 <= c <= 0x9f -> Unpack (c :: q) = Unpacked (scalar ArrayLen (c - 0x90)) q.
Proof. intros Hc. head_cases. reflexivity. Qed.

Lemma Unpack_fixstr c q :
  0xa0 <= c <= 0xbf -> Unpack (c :: q) = unpack_payload String_ 0 (c - 0xa0) q.
Proof. intros Hc. head_cases. reflexivity. Qed.


(** The head byte is a literal: the comparisons of [Unpack] compute. *)
Local Ltac head_code :=
  cbn [app]; unfold Unpack;
  cbn [Z.leb Z.eqb Z.compare Pos.compare Pos.compare_cont Pos.eqb].












Lemma len_nonneg {A} (l : list A) : 0 <= len l.
Proof. unfold len. lia. Qed.

Lemma unpack_payload_app t ext (d rest : bytes) :
  unpack_payload t ext (len d) (d ++ rest)
  = Unpacked (mkDecoder t (len d) d ext) rest.
Proof. unfold unpack_payload. now rewrite read_bytes_app. Qed.











(** ** The loop of [unpack] is bounded by its input *)









(** ** Batches *)

Lemma PackArrayLen_ok i q :
  PackArrayLen i = (q, None) -> 0 <= i < 2 ^ 32.
Proof.
  unfold PackArrayLen, failed, wrote.
  destruct (Z.ltb_spec i 0); [discriminate |].
  destruct (Z.leb_spec i 15); [lia |].
  destruct (Z.leb_spec i 0xffff); [lia |].
  destruct (Z.leb_spec i 0xffffffff); [lia | discriminate].
Qed.

Lemma Encode_slice_ok (l : list value) q :
  Encode (VSlice (Some l)) = (q, None) ->
  len l < 2 ^ 32
  /\ q = (PackArrayLen (len l)).1 ++ concat (map (fun a => (Encode a).1) l).
Proof.
  cbn [Encode].
  set (members := fix members (l0 : list value) : Enc :=
         match l0 with [] => wrote [] | x :: l' => Encode x >> members l' end).
  assert (Hm : forall l0 q0, members l0 = (q0, None) ->
                 q0 = concat (map (fun a => (Encode a).1) l0)).
  { induction l0 as [| x l0 IH]; intros q0; cbn [members map concat].
    - unfold wrote. now intros [= <-].
    - destruct (Encode x) as [qx [e |]]; cbn [andThen]; [discriminate |].
      destruct (members l0) as [ql el] eqn:Hl. cbn [fst snd].
      intros [= <- ->]. now rewrite (IH ql eq_refl). }
  destruct (PackArrayLen (len l)) as [hd [e |]] eqn:Hhd; cbn [andThen];
    [discriminate |].
  apply PackArrayLen_ok in Hhd.
  destruct (members l) as [ql el] eqn:Hl. cbn [fst snd].
  intros [= <- ->]. split; [lia |]. now rewrite (Hm l ql Hl).
Qed.

Lemma call_poisoned b sm result args e :
  err b = Some e -> call b sm result args = b.
Proof. intros He. unfold call. now rewrite He. Qed.

Lemma queue_all_poisoned b cs e :
  err b = Some e -> queue_all b cs = b.
Proof.
  intros He. induction cs as [| c cs IH]; [reflexivity |].
  cbn [queue_all fold_left]. unfold queue at 2.
  rewrite (call_poisoned b _ _ _ e He). exact IH.
Qed.

(** A batch no call of which failed holds exactly the calls queued. *)
Lemma queue_ok b c :
  err (queue b c) = None ->
  err b = None
  /\ len (args_of c) < 2 ^ 32
  /\ sms (queue b c) = sms b ++ [q_sm c]
  /\ results (queue b c) = results b ++ [q_result c]
  /\ buf (queue b c) = buf b ++ pair_bytes c.
Proof.
  unfold queue, call, pair_bytes, args_of.
  destruct (err b) as [e |] eqn:He; [congruence |].
  cbn [err sms results buf]. intros Hw.
  set (a := match q_args c with None => emptyArgs | Some a => a end).
  assert (Ha : match q_args c with None => Some emptyArgs | Some _ => q_args c end
               = Some a) by (subst a; now destruct (q_args c)).
  rewrite Ha in *.
  replace (match q_args c with None => [] | Some a0 => a0 end) with a
    by (subst a; now destruct (q_args c)).
  destruct (Encode (VSlice (Some a))) as [qa ea] eqn:Hq.
  unfold ignoring, andThen in *. cbn [fst snd] in *. subst ea.
  destruct (Encode_slice_ok a qa Hq) as [Hlen ->].
  split; [reflexivity |]. split; [exact Hlen |].
  split; [reflexivity |]. split; reflexivity.
Qed.

Lemma queue_all_ok cs : forall b,
  err (queue_all b cs) = None ->
  err b = None
  /\ Forall (fun c => len (args_of c) < 2 ^ 32) cs
  /\ sms (queue_all b cs) = sms b ++ map q_sm cs
  /\ results (queue_all b cs) = results b ++ map q_result cs
  /\ buf (queue_all b cs) = buf b ++ concat (map pair_bytes cs).
Proof.
  induction cs as [| c cs IH]; intros b Hb.
  - cbn. rewrite !app_nil_r. repeat split; [exact Hb | constructor].
  - cbn [queue_all fold_left] in *.
    destruct (IH _ Hb) as (Hc & Hargs & Hs & Hr & Hbuf).
    destruct (queue_ok b c Hc) as (H0 & Ha1 & Hs1 & Hr1 & Hb1).
    fold (queue_all (queue b c) cs) in *.
    rewrite Hs, Hr, Hbuf, Hs1, Hr1, Hb1. cbn [map concat].
    rewrite <- !app_assoc. repeat split; [exact H0 | now constructor].
Qed.

Section ClientProperties.

Variables exceptionError validationError : Z.
Variable Sprint : value -> string.

Local Abbreviation Execute' := (Execute exceptionError validationError).
Local Abbreviation fixError' := (fixError exceptionError validationError Sprint).

(** C3. Once an append failed to encode, leaving the error [e] in the
    batch, every later call leaves the batch as it is: the method names, the
    result parameters and the payload do not change. [Execute] then returns
    [e], sends no request and writes no result. *)
Theorem poisoned_batch (b : Batch) (c : Queued) (e : error)
    (cs : list Queued) (ep : Endpoint) (h : heap) :
  err (queue b c) = Some e ->
  (forall c', queue (queue b c) c' = queue b c)
  /\ queue_all (queue b c) cs = queue b c
  /\ sent (Execute' ep (queue_all (queue b c) cs) h) = []
  /\ returned (Execute' ep (queue_all (queue b c) cs) h) = Returned (Some e)
  /\ memory (Execute' ep (queue_all (queue b c) cs) h) = h.
Proof.
  intros He. split; [| split].
  - intros c'. unfold queue at 1. now apply call_poisoned with e.
  - now apply queue_all_poisoned with e.
  - rewrite (queue_all_poisoned _ cs e He).
    unfold Execute, Execute_body. rewrite He. cbn. auto.
Qed.

(** C4. Whatever [Execute] did, the batch it leaves has an empty payload, no
    method names, no result parameters and no captured error: it is the batch
    [NewBatch] gives, and calls queued on it behave as on a new batch. *)
Theorem Execute_resets (ep : Endpoint) (b : Batch) (h : heap) :
  buf (batch (Execute' ep b h)) = []
  /\ sms (batch (Execute' ep b h)) = []
  /\ results (batch (Execute' ep b h)) = []
  /\ err (batch (Execute' ep b h)) = None
  /\ batch (Execute' ep b h) = NewBatch
  /\ forall cs, queue_all (batch (Execute' ep b h)) cs = queue_all NewBatch cs.
Proof. repeat split. Qed.

Lemma index_sms_in_range (l : list string) i :
  0 <= i < len l ->
  exists sm, l !! Z.to_nat i = Some sm /\ index_sms l i = Returned sm.
Proof.
  intros Hi. unfold index_sms, len in *.
  destruct (Z.ltb_spec i 0); [lia |].
  destruct (Z.leb_spec (Z.of_nat (length l)) i); [lia |]. cbn [orb].
  destruct (l !! Z.to_nat i) as [sm |] eqn:Hl; [now exists sm |].
  apply lookup_ge_None in Hl. lia.
Qed.

(** The guard of [Execute] on the failure descriptor. *)
Lemma guard_false (l : list string) i t :
  (i <? 0) || (len l <=? i)
  || (negb (t =? exceptionError) && negb (t =? validationError)) = false
  <-> 0 <= i < len l /\ (t = exceptionError \/ t = validationError).
Proof.
  destruct (Z.ltb_spec i 0), (Z.leb_spec (len l) i),
    (Z.eqb_spec t exceptionError), (Z.eqb_spec t validationError);
    cbn; split; intros; try discriminate; try lia; try tauto; intuition lia.
Qed.

(** What [Execute] returns when the reply carries a failure descriptor. *)
Lemma Execute_failure_returned ep b h res f :
  err b = None ->
  ep_CallAtomic ep (atomic_request b) = inr res ->
  Error res = Some f ->
  returned (Execute' ep b h) =
    if (Index f <? 0) || (len (sms b) <=? Index f)
       || (negb (Type__ f =? exceptionError) && negb (Type__ f =? validationError))
    then Returned (Some (ErrorString
           ("nvim:nvim_call_atomic " +:+ pretty (Index f) +:+ " "
            +:+ pretty (Type__ f) +:+ " " +:+ Message f)))
    else match index_sms (sms b) (Index f) with
         | Returned sm =>
             Returned (Some (BatchError (Index f)
               (ErrorString ("nvim:" +:+ sm +:+ " "
                  +:+ (if Type__ f =? validationError then "validation" else "exception")
                  +:+ ": " +:+ Message f))))
         | Panicked msg => Panicked msg
         end.
Proof.
  intros He Hep Hf. unfold Execute, Execute_body.
  rewrite He, Hep, Hf. cbn [returned]. now destruct (_ || _).
Qed.


Lemma Execute_sent ep b h :
  err b = None -> sent (Execute' ep b h) = [atomic_request b].
Proof.
  intros He. unfold Execute, Execute_body. rewrite He. cbn [sent].
  destruct (ep_CallAtomic ep (atomic_request b)) as [e | res]; [reflexivity |].
  destruct (Error res) as [f |]; [| reflexivity]. now destruct (_ || _).
Qed.

Lemma Execute_no_panic ep b h msg : returned (Execute' ep b h) <> Panicked msg.
Proof.
  unfold Execute, Execute_body. cbn [returned].
  destruct (err b) as [e |]; [discriminate |].
  destruct (ep_CallAtomic ep (atomic_request b)) as [e | res]; [discriminate |].
  destruct (Error res) as [f |]; [| discriminate].
  destruct (_ || _) eqn:Hg; [discriminate |].
  apply guard_false in Hg. destruct Hg as [Hi _].
  destruct (index_sms_in_range (sms b) (Index f) Hi) as (sm & _ & ->).
  discriminate.
Qed.

Lemma Execute_failure_in_range ep b h res f :
  err b = None ->
  ep_CallAtomic ep (atomic_request b) = inr res ->
  Error res = Some f ->
  0 <= Index f < len (sms b) ->
  Type__ f = exceptionError \/ Type__ f = validationError ->
  exists sm,
    sms b !! Z.to_nat (Index f) = Some sm
    /\ returned (Execute' ep b h) =
         Returned (Some (BatchError (Index f)
           (ErrorString ("nvim:" +:+ sm +:+ " "
              +:+ (if Type__ f =? validationError then "validation" else "exception")
              +:+ ": " +:+ Message f)))).
Proof.
  intros He Hep Hf Hi Ht.
  rewrite (Execute_failure_returned ep b h res f He Hep Hf).
  pose proof (proj2 (guard_false (sms b) (Index f) (Type__ f)) (conj Hi Ht)) as Hg.
  rewrite Hg.
  destruct (index_sms_in_range (sms b) (Index f) Hi) as (sm & Hsm & ->).
  now exists sm.
Qed.

(** C9. When the reply carries a failure descriptor, [Execute] returns a
    [BatchError] exactly when the index is that of a queued call and the type
    is the exception or the validation kind; for any other index or type it
    returns the plain error [nvim:nvim_call_atomic <index> <type> <message>].
    The method name is then read within bounds: [Execute] does not panic. *)
Theorem Execute_BatchError_guard (ep : Endpoint) (b : Batch) (h : heap)
    (res : AtomicResult) (f : Failure) :
  err b = None ->
  ep_CallAtomic ep (atomic_request b) = inr res ->
  Error res = Some f ->
  (forall msg, returned (Execute' ep b h) <> Panicked msg)
  /\ (0 <= Index f < len (sms b)
      /\ (Type__ f = exceptionError \/ Type__ f = validationError) ->
      exists sm,
        sms b !! Z.to_nat (Index f) = Some sm
        /\ returned (Execute' ep b h) =
             Returned (Some (BatchError (Index f)
               (ErrorString ("nvim:" +:+ sm +:+ " "
                  +:+ (if Type__ f =? validationError then "validation" else "exception")
                  +:+ ": " +:+ Message f)))))
  /\ (~ (0 <= Index f < len (sms b)
         /\ (Type__ f = exceptionError \/ Type__ f = validationError)) ->
      returned (Execute' ep b h) =
        Returned (Some (ErrorString
          ("nvim:nvim_call_atomic " +:+ pretty (Index f) +:+ " "
           +:+ pretty (Type__ f) +:+ " " +:+ Message f)))).
Proof.
  intros He Hep Hf. split; [intros msg; apply Execute_no_panic |].
  split.
  - intros [Hi Ht]. now apply Execute_failure_in_range with res.
  - intros Hno. rewrite (Execute_failure_returned ep b h res f He Hep Hf).
    destruct (_ || _) eqn:Hg; [reflexivity |].
    apply guard_false in Hg. contradiction.
Qed.

(** *** Results and the variables of the caller *)

Lemma store_results_other rs : forall ts (h : heap) a,
  (forall k, (k < length rs)%nat -> ts !! k <> Some (Some a)) ->
  store_results rs ts h !! a = h !! a.
Proof.
  induction rs as [| r rs IH]; intros ts h a Hno; [reflexivity |].
  destruct ts as [| t ts]; [reflexivity |]. cbn [store_results].
  rewrite IH.
  - destruct t as [a' |]; cbn [store]; [| reflexivity].
    apply lookup_insert_ne. intros ->.
    apply (Hno 0%nat); [cbn; lia | reflexivity].
  - intros k Hk. apply (Hno (S k)). cbn. lia.
Qed.



(** *** The wire form of a batch *)

Lemma PackArrayLen_header i :
  0 <= i < 2 ^ 32 ->
  (PackArrayLen i).2 = None /\ header (PackArrayLen i).1 (scalar ArrayLen i).
Proof.
  intros Hi. unfold PackArrayLen, header.
  destruct (Z.ltb_spec i 0); [lia |].
  destruct (Z.leb_spec i 15).
  { split; [reflexivity |]. intros rest. cbn [wrote fst app].
    rewrite Unpack_fixarray by lia. do 2 f_equal. lia. }
  destruct (Z.leb_spec i 0xffff).
  { split; [reflexivity |]. intros rest. cbn [wrote fst app].
    change (Unpack (0xdc :: be 2 i ++ rest))
      with (unpack_scalar ArrayLen id 2 (be 2 i ++ rest)).
    unfold unpack_scalar, id. rewrite read_be_be.
    now rewrite Z.mod_small by (cbn; lia). }
  destruct (Z.leb_spec i 0xffffffff); [| lia].
  split; [reflexivity |]. intros rest. cbn [wrote fst app].
  change (Unpack (0xdd :: be 4 i ++ rest))
    with (unpack_scalar ArrayLen id 4 (be 4 i ++ rest)).
  unfold unpack_scalar, id. rewrite read_be_be.
  now rewrite Z.mod_small by (cbn; lia).
Qed.

Lemma PackString_header s :
  len (bytes_of_string s) < 2 ^ 32 ->
  exists d, header (PackString s).1 d /\ DType d = String_ /\ DString d = s.
Proof.
  intros Hs. pose proof (len_nonneg (bytes_of_string s)) as Hn.
  exists (mkDecoder String_ (len (bytes_of_string s)) (bytes_of_string s) 0).
  split; [| split; [reflexivity | apply string_of_bytes_of_string]].
  unfold PackString, header. cbv zeta. intros rest.
  destruct (Z.leb_spec (len (bytes_of_string s)) 31).
  { cbn [wrote fst app]. rewrite Unpack_fixstr by lia.
    replace (160 + len (bytes_of_string s) - 160) with (len (bytes_of_string s)) by lia.
    apply unpack_payload_app. }
  destruct (Z.leb_spec (len (bytes_of_string s)) 0xff).
  { cbn [wrote fst app]. rewrite <- app_assoc.
    change (Unpack (0xd9 :: ?q)) with (unpack_sized String_ 1 q).
    unfold unpack_sized. rewrite read_be_be, Z.mod_small by (cbn; lia).
    apply unpack_payload_app. }
  destruct (Z.leb_spec (len (bytes_of_string s)) 0xffff).
  { cbn [wrote fst app]. rewrite <- app_assoc.
    change (Unpack (0xda :: ?q)) with (unpack_sized String_ 2 q).
    unfold unpack_sized. rewrite read_be_be, Z.mod_small by (cbn; lia).
    apply unpack_payload_app. }
  destruct (Z.leb_spec (len (bytes_of_string s)) 0xffffffff); [| lia].
  cbn [wrote fst app]. rewrite <- app_assoc.
  change (Unpack (0xdb :: ?q)) with (unpack_sized String_ 4 q).
  unfold unpack_sized. rewrite read_be_be, Z.mod_small by (cbn; lia).
  apply unpack_payload_app.
Qed.

(** C2. [Execute] sends the calls queued on a batch, none of which failed to
    encode, as one request, to the verb [nvim_call_atomic], with one
    argument. On the wire the argument is [atomic_bytes]: an array header
    that declares the number of queued calls, followed by the pairs as they
    were encoded when queued; a pair ([pair_bytes]) is the header of a
    two-element array, the method name as a string, and the array of the
    arguments. The headers are read back as such for the sizes a MessagePack
    header can declare, below [2^32]. *)
Theorem Execute_sends_batch (cs : list Queued) (ep : Endpoint) (h : heap) :
  let b := queue_all NewBatch cs in
  err b = None ->
  sent (Execute' ep b h) =
    [{| method := "nvim_call_atomic";
        params := Some [VBatchArg {| n := len cs; p := concat (map pair_bytes cs) |}] |}]
  /\ Encode (VBatchArg {| n := len cs; p := concat (map pair_bytes cs) |})
     = wrote (atomic_bytes cs)
  /\ (len cs < 2 ^ 32 ->
      header (PackArrayLen (len cs)).1 (scalar ArrayLen (len cs)))
  /\ Forall (fun c =>
       header [0x92] (scalar ArrayLen 2)
       /\ (len (bytes_of_string (q_sm c)) < 2 ^ 32 ->
           exists d, header (PackString (q_sm c)).1 d
                     /\ DType d = String_ /\ DString d = q_sm c)
       /\ header (PackArrayLen (len (args_of c))).1
                 (scalar ArrayLen (len (args_of c)))) cs.
Proof.
  intros b He.
  destruct (queue_all_ok cs NewBatch He) as (_ & Hargs & Hsms & _ & Hbuf).
  fold b in Hsms, Hbuf. cbn [NewBatch sms buf app] in Hsms, Hbuf.
  pose proof (len_nonneg cs) as Hn0.
  split; [| split; [| split]].
  - rewrite (Execute_sent ep b h He). unfold atomic_request.
    rewrite Hsms, Hbuf. unfold len. now rewrite length_map.
  - reflexivity.
  - intros Hn. apply PackArrayLen_header. lia.
  - rewrite Forall_forall in *. intros c Hc. split; [| split].
    + intros rest. reflexivity.
    + apply PackString_header.
    + apply PackArrayLen_header.
      pose proof (len_nonneg (args_of c)). specialize (Hargs c Hc). cbn in Hargs. lia.
Qed.

(** *** Application errors *)

Local Abbreviation Nvim_call' := (Nvim_call exceptionError validationError Sprint).
Local Abbreviation Nvim_Call' := (Nvim_Call exceptionError validationError Sprint).
Local Abbreviation Nvim_CallDict' := (Nvim_CallDict exceptionError validationError Sprint).
Local Abbreviation Nvim_ExecuteLua' := (Nvim_ExecuteLua exceptionError validationError Sprint).

(** C7. An error value [[kind, message]] whose kind is the exception kind,
    as an [int64] or a [uint64], becomes the error
    [nvim:<method> exception: <message>], and one of the validation kind
    [nvim:<method> validation: <message>], the message being printed with
    [%v]; every other error, and nil, is returned as it is. [Nvim.call]
    returns what [fixError] makes of the error of the endpoint, and the
    error [Execute] wraps in a [BatchError] has the same form. *)
Theorem fixError_application_error (sm : string) (m : value) :
  exceptionError <> validationError ->
  (forall k, k = VInt64 exceptionError \/ k = VUint64 exceptionError ->
     fixError' sm (Some (RpcError (VSlice (Some [k; m]))))
     = Some (ErrorString ("nvim:" +:+ sm +:+ " exception: " +:+ Sprint m)))
  /\ (forall k, k = VInt64 validationError \/ k = VUint64 validationError ->
        fixError' sm (Some (RpcError (VSlice (Some [k; m]))))
        = Some (ErrorString ("nvim:" +:+ sm +:+ " validation: " +:+ Sprint m)))
  /\ (forall e, is_application_error exceptionError validationError e = false ->
        fixError' sm e = e)
  /\ (forall ep result args h,
        (Nvim_call' ep sm result args h).2
        = fixError' sm match ep_Call ep {| method := sm; params := args |} with
                       | inl e => Some e
                       | inr _ => None
                       end)
  /\ (forall ep b h res f,
        err b = None ->
        ep_CallAtomic ep (atomic_request b) = inr res ->
        Error res = Some f ->
        0 <= Index f < len (sms b) ->
        Type__ f = exceptionError \/ Type__ f = validationError ->
        exists sm',
          sms b !! Z.to_nat (Index f) = Some sm'
          /\ returned (Execute' ep b h) =
               Returned (Some (BatchError (Index f)
                 (ErrorString ("nvim:" +:+ sm' +:+ " "
                    +:+ (if Type__ f =? validationError
                         then "validation" else "exception")
                    +:+ ": " +:+ Message f))))).
Proof.
  intros Hne. split; [| split; [| split; [| split]]];
    [| | | | intros ep b h res f; apply Execute_failure_in_range].
  - intros k [-> | ->]; cbn [fixError is_kind]; now rewrite Z.eqb_refl.
  - intros k [-> | ->]; cbn [fixError is_kind];
      (destruct (Z.eqb_spec validationError exceptionError); [congruence |]);
      now rewrite Z.eqb_refl.
  - intros e He. unfold fixError, is_application_error in *.
    destruct e as [[| v |] |]; try reflexivity.
    destruct v as [| | | | | | | [[| a0 [| a1 [| ? ?]]] |] | |]; try reflexivity.
    apply orb_false_iff in He. destruct He as [-> ->]. reflexivity.
  - intros ep result args h. unfold Nvim_call.
    now destruct (ep_Call ep _).
Qed.

(** *** Calls without arguments *)

(** C10. [Call], [CallDict] and [ExecuteLua], on the client and on a batch,
    called with no variadic argument do what they do with an empty argument
    list: the last parameter of the request, or of the queued call, is the
    empty slice, which is written as the header of an array of length 0.
    [Batch.call] does the same with its own arguments: the pair it appends
    to the payload ends with that header. *)
Theorem wrappers_empty_args (ep : Endpoint) (b : Batch) (fname : string)
    (dict : option (list value)) (result : target) (h : heap) :
  (Nvim_Call' ep fname result None h = Nvim_Call' ep fname result (Some []) h
   /\ (Nvim_Call' ep fname result None h).1.1
      = {| method := "nvim_call_function";
           params := Some [VString fname; VSlice (Some [])] |})
  /\ (Nvim_CallDict' ep dict fname result None h
      = Nvim_CallDict' ep dict fname result (Some []) h
      /\ (Nvim_CallDict' ep dict fname result None h).1.1
         = {| method := "nvim_call_dict_function";
              params := Some [VString fname; VSlice dict; VSlice (Some [])] |})
  /\ (Nvim_ExecuteLua' ep fname result None h
      = Nvim_ExecuteLua' ep fname result (Some []) h
      /\ (Nvim_ExecuteLua' ep fname result None h).1.1
         = {| method := "nvim_execute_lua";
              params := Some [VString fname; VSlice (Some [])] |})
  /\ Batch_Call b fname result None
     = call b "nvim_call_function" result (Some [VString fname; VSlice (Some [])])
  /\ Batch_CallDict b dict fname result None
     = call b "nvim_call_dict_function" result
         (Some [VString fname; VSlice dict; VSlice (Some [])])
  /\ Batch_ExecuteLua b fname result None
     = call b "nvim_execute_lua" result (Some [VString fname; VSlice (Some [])])
  /\ call b fname result None = call b fname result (Some [])
  /\ (err b = None ->
      buf (call b fname result None)
      = buf b ++ [0x92] ++ (PackString fname).1 ++ [0x90])
  /\ Encode (VSlice (Some [])) = wrote [0x90]
  /\ header [0x90] (scalar ArrayLen 0).
Proof.
  assert (Hbuf : err b = None ->
            buf (call b fname result None)
            = buf b ++ [0x92] ++ (PackString fname).1 ++ [0x90]).
  { intros He. unfold call. rewrite He. reflexivity. }
  repeat split; try exact Hbuf.
  all: unfold Nvim_Call, Nvim_CallDict, Nvim_ExecuteLua, Nvim_call; cbn [params method].
  all: now destruct (ep_Call ep _).
Qed.

End ClientProperties.

(** ** Close *)

(** C5, as the code has it. On a client that owns a child process and
    started [Serve], [Close] runs its three steps whatever errors they give:
    the timer that kills the child after 10 seconds is started, the endpoint
    is closed, the child is waited for (and killed first when it does not
    exit by itself), and the error of [Serve] is received (or, after 10
    seconds, given up). The error returned is the first of the three that is
    not nil, in that order. On any client the endpoint is closed, the child
    is waited for when there is one, [Serve] is waited for when the client
    started it, and the error is the first non-nil one of these steps. *)
Theorem Close_all_steps (e : Endpoint) (child : Child) (ch : ServeCh) (v : Nvim) :
  Close {| ep := e; cmd := Some {| Process := Some child |}; serveCh := Some ch |}
  = ([AfterFunc 10; EpClose]
       ++ (if child is Lingers _ then [Kill] else [])
       ++ [Wait; if ch is Silent then After 10 else ReceiveServe; Stop],
     first_error [ep_Close e; child_status child; serve_error ch])
  /\ (Close v).2 = first_error (Close_errors v)
  /\ EpClose ∈ (Close v).1
  /\ (is_Some (cmd v) -> Wait ∈ (Close v).1)
  /\ (is_Some (serveCh v) -> ReceiveServe ∈ (Close v).1 \/ After 10 ∈ (Close v).1).
Proof.
  split; [| split; [| split; [| split]]].
  - destruct child as [[e1 |] | [e1 |]], ch as [[e2 |] |]; cbn;
      destruct (ep_Close e) as [e0 |]; reflexivity.
  - destruct v as [e' [[[[[e1 |] | [e1 |]] |]] |] [[[e2 |] |] |]]; cbn;
      destruct (ep_Close e') as [e0 |]; reflexivity.
  - destruct v as [e' [[[[st | st] |]] |] [[r |] |]]; cbn; set_solver.
  - intros [c Hc].
    destruct v as [e' [[[[st | st] |]] |] [[r |] |]]; cbn in *;
      try discriminate; set_solver.
  - intros [s Hs].
    destruct v as [e' [[[[st | st] |]] |] [[r |] |]]; cbn in *;
      try discriminate; set_solver.
Qed.

(** ** The scenario of the specification *)




(** The same run, evaluated: the error, and the three result variables. *)
Example scenario_evaluated :
  let r := Execute 0 1 (peer (inr validation_failure))
             (queue_all NewBatch three_calls) defaults in
  returned r = Returned (Some (BatchError 1
                 (ErrorString "nvim:bad-value validation: Invalid value")))
  /\ memory r !! 0%nat = Some (VString "ok")
  /\ memory r !! 1%nat = Some VNil
  /\ memory r !! 2%nat = Some (VInt64 7)
  /\ batch r = NewBatch.
Proof. vm_compute. repeat split. Qed.

Lemma Execute_BatchError_guard_witness :
  err (queue_all NewBatch three_calls) = None
  /\ ep_CallAtomic (peer (inr unknown_failure))
       (atomic_request (queue_all NewBatch three_calls)) = inr unknown_failure
  /\ Error unknown_failure
     = Some {| Index := 1; Type__ := 2; Message := "Invalid value" |}
  /\ returned (Execute 0 1 (peer (inr unknown_failure))
                 (queue_all NewBatch three_calls) defaults)
     = Returned (Some (ErrorString
         ("nvim:nvim_call_atomic " +:+ pretty 1 +:+ " " +:+ pretty 2 +:+ " "
          +:+ "Invalid value"))).
Proof.
  split; [reflexivity |]. split; [reflexivity |]. split; [reflexivity |].
  apply (Execute_BatchError_guard 0 1 (peer (inr unknown_failure))
           (queue_all NewBatch three_calls) defaults unknown_failure
           {| Index := 1; Type__ := 2; Message := "Invalid value" |}
           eq_refl eq_refl eq_refl).
  simpl. lia.
Defined.

Lemma poisoned_batch_witness :
  err (queue NewBatch bad_call) = Some (ErrorString "msgpack: unsupported type")
  /\ (forall c', queue (queue NewBatch bad_call) c' = queue NewBatch bad_call)
  /\ queue_all (queue NewBatch bad_call) three_calls = queue NewBatch bad_call
  /\ sent (Execute 0 1 (peer (inr validation_failure))
             (queue_all (queue NewBatch bad_call) three_calls) defaults) = []
  /\ returned (Execute 0 1 (peer (inr validation_failure))
                 (queue_all (queue NewBatch bad_call) three_calls) defaults)
     = Returned (Some (ErrorString "msgpack: unsupported type"))
  /\ memory (Execute 0 1 (peer (inr validation_failure))
               (queue_all (queue NewBatch bad_call) three_calls) defaults)
     = defaults.
Proof.
  split; [reflexivity |].
  exact (poisoned_batch 0 1 NewBatch bad_call
           (ErrorString "msgpack: unsupported type") three_calls
           (peer (inr validation_failure)) defaults eq_refl).
Defined.

Lemma Execute_sends_batch_witness :
  err (queue_all NewBatch three_calls) = None
  /\ sent (Execute 0 1 (peer (inr validation_failure))
             (queue_all NewBatch three_calls) defaults)
     = [{| method := "nvim_call_atomic";
           params := Some [VBatchArg {| n := len three_calls;
                                        p := concat (map pair_bytes three_calls) |}] |}]
  /\ Encode (VBatchArg {| n := len three_calls;
                          p := concat (map pair_bytes three_calls) |})
     = wrote (atomic_bytes three_calls).
Proof.
  split; [reflexivity |].
  destruct (Execute_sends_batch 0 1 three_calls (peer (inr validation_failure))
              defaults eq_refl) as (Hsent & Henc & _).
  split; [exact Hsent | exact Henc].
Defined.

Lemma fixError_application_error_witness :
  0 <> 1
  /\ fixError 0 1 sprint_string "nvim_command"
       (Some (RpcError (VSlice (Some [VInt64 0; VString "E492: Not an editor command"]))))
     = Some (ErrorString "nvim:nvim_command exception: E492: Not an editor command")
  /\ fixError 0 1 sprint_string "nvim_set_option"
       (Some (RpcError (VSlice (Some [VUint64 1; VString "Invalid option name"]))))
     = Some (ErrorString "nvim:nvim_set_option validation: Invalid option name")
  /\ fixError 0 1 sprint_string "nvim_command" (Some (ErrorString "EOF"))
     = Some (ErrorString "EOF").
Proof.
  assert (H : 0 <> 1) by lia.
  split; [exact H |].
  split; [| split].
  - apply (fixError_application_error 0 1 sprint_string "nvim_command"
             (VString "E492: Not an editor command") H).
    left. reflexivity.
  - apply (fixError_application_error 0 1 sprint_string "nvim_set_option"
             (VString "Invalid option name") H).
    right. reflexivity.
  - apply (fixError_application_error 0 1 sprint_string "nvim_command" VNil H).
    reflexivity.
Defined.

(** A call without arguments on a new batch. *)
Lemma wrappers_empty_args_witness :
  err NewBatch = None
  /\ buf (call NewBatch "nvim_get_mode" None None)
     = buf NewBatch ++ [0x92] ++ (PackString "nvim_get_mode").1 ++ [0x90].
Proof.
  split; [reflexivity |].
  apply (wrappers_empty_args 0 1 sprint_string (peer (inr validation_failure))
           NewBatch "nvim_get_mode" None None defaults).
  reflexivity.
Defined.

Lemma Close_all_steps_witness :
  is_Some (cmd serving_client)
  /\ Wait ∈ (Close serving_client).1.
Proof.
  assert (H : is_Some (cmd serving_client)) by (eexists; reflexivity).
  split; [exact H |].
  apply (Close_all_steps (ep serving_client) (Exits None) (Reports None)
           serving_client).
  exact H.
Defined.

(** C5, as the claim words it, fails: on a client whose [Serve] the
    application runs, [Close] closes the endpoint and waits for the child,
    and returns without waiting for [Serve]. *)
Lemma Close_without_waiting_for_Serve :
  serveCh embedded_client = None
  /\ Close embedded_client = ([AfterFunc 10; EpClose; Wait; Stop], None)
  /\ (ReceiveServe ∉ (Close embedded_client).1)
  /\ (After 10 ∉ (Close embedded_client).1).
Proof.
  split; [reflexivity |]. split; [reflexivity |].
  split; cbn; rewrite !elem_of_cons, elem_of_nil; intros H;
    repeat destruct H as [H | H]; try discriminate H; exact H.
Qed.

(** * Further properties *)

(** ** decodeExt on every form *)

Lemma signed_range w x :
  0 < w -> - 2 ^ (w - 1) <= signed w x < 2 ^ (w - 1).
Proof.
  intros Hw. unfold signed. cbv zeta.
  assert (Hp : 2 ^ w = 2 * 2 ^ (w - 1)).
  { rewrite <- Z.pow_succ_r by lia. f_equal. lia. }
  assert (Hpos : 0 < 2 ^ (w - 1)) by (apply Z.pow_pos_nonneg; lia).
  pose proof (Z.mod_pos_bound x (2 ^ w) ltac:(lia)) as Hm.
  destruct (Z.ltb_spec (x mod 2 ^ w) (2 ^ (w - 1))); lia.
Qed.

Lemma signed_mod w x : 0 < w -> signed w (x mod 2 ^ w) = signed w x.
Proof.
  intros Hw. unfold signed. rewrite Z.mod_mod; [reflexivity |].
  apply Z.pow_nonzero; lia.
Qed.

(** Four bytes put together as [decodeExt] does. *)
Lemma join32_bytes b1 b2 b3 b4 :
  0 <= b1 < 256 -> 0 <= b2 < 256 -> 0 <= b3 < 256 -> 0 <= b4 < 256 ->
  Z.lor (Z.lor (Z.lor (uint32 b4) (uint32 (Z.shiftl (uint32 b3) 8)))
               (uint32 (Z.shiftl (uint32 b2) 16)))
        (uint32 (Z.shiftl (uint32 b1) 24))
  = b4 + b3 * 2 ^ 8 + b2 * 2 ^ 16 + b1 * 2 ^ 24.
Proof.
  intros H1 H2 H3 H4. unfold uint32.
  rewrite !(Z.mod_small b1), !(Z.mod_small b2), !(Z.mod_small b3),
    !(Z.mod_small b4) by lia.
  rewrite !Z.shiftl_mul_pow2 by lia.
  rewrite !(Z.mod_small (_ * _) (2 ^ 32)) by lia.
  rewrite <- !Z.shiftl_mul_pow2 by lia.
  rewrite (lor_shiftl_add b4) by lia.
  rewrite (lor_shiftl_add (b4 + _)) by lia.
  rewrite (lor_shiftl_add (b4 + _ + _)) by lia.
  rewrite !Z.shiftl_mul_pow2 by lia. reflexivity.
Qed.

Lemma join16_bytes b1 b2 :
  0 <= b1 < 256 -> 0 <= b2 < 256 ->
  Z.lor (uint16 b2) (uint16 (Z.shiftl (uint16 b1) 8)) = b2 + b1 * 2 ^ 8.
Proof.
  intros H1 H2. unfold uint16.
  rewrite !(Z.mod_small b1), !(Z.mod_small b2) by lia.
  rewrite !Z.shiftl_mul_pow2 by lia.
  rewrite !(Z.mod_small (_ * _) (2 ^ 16)) by lia.
  rewrite <- !Z.shiftl_mul_pow2 by lia.
  rewrite (lor_shiftl_add b2) by lia.
  rewrite ?Z.shiftl_mul_pow2 by lia. reflexivity.
Qed.

Lemma decodeExt_encodeExt_int32 (i : Z) :
  decodeExt (encodeExt i) = (int32 i, None).
Proof.
  unfold decodeExt, encodeExt, len, at_. cbn [length nth Z.of_nat].
  change (Z.of_nat 5) with 5. cbn [Z.eqb Pos.eqb andb].
  rewrite join32. unfold int32, int.
  rewrite (signed_mod 32) by lia.
  pose proof (signed_range 32 i ltac:(lia)) as Hr.
  now rewrite (signed_id 64) by lia.
Qed.

(** X1. [encodeExt] keeps the low 32 bits of its argument: for every [i],
    in or out of the 32-bit range, [decodeExt] of [encodeExt i] is [i]
    wrapped to a signed 32-bit number, with no error; so two numbers that
    differ by a multiple of [2^32] are decoded to the same number. *)
Theorem decodeExt_encodeExt_wraps (i k : Z) :
  decodeExt (encodeExt i) = (int32 i, None)
  /\ decodeExt (encodeExt (i + k * 2 ^ 32)) = decodeExt (encodeExt i).
Proof.
  rewrite !decodeExt_encodeExt_int32. split; [reflexivity |].
  unfold int32, signed. now rewrite Z.mod_add by lia.
Qed.

Lemma int_id x : - 2 ^ 63 <= x < 2 ^ 63 -> int x = x.
Proof. intros Hx. unfold int. now rewrite (signed_id 64) by lia. Qed.

(** [decodeExt] on each of the forms it accepts, byte by byte. *)
Lemma decodeExt_fixpos b0 :
  0 <= b0 <= 0x7f -> decodeExt [b0] = (b0, None).
Proof.
  intros H. unfold decodeExt, len, at_. cbn [length nth Z.of_nat Pos.of_succ_nat].
  cbn [Z.eqb Pos.eqb andb].
  destruct (Z.leb_spec b0 0x7f); [| lia]. now rewrite int_id by lia.
Qed.

Lemma decodeExt_fixneg b0 :
  0xe0 <= b0 < 256 -> decodeExt [b0] = (b0 - 256, None).
Proof.
  intros H. unfold decodeExt, len, at_. cbn [length nth Z.of_nat Pos.of_succ_nat].
  cbn [Z.eqb Pos.eqb andb].
  destruct (Z.leb_spec b0 0x7f); [lia |].
  destruct (Z.leb_spec 0xe0 b0); [| lia].
  replace (int8 b0) with (b0 - 256).
  - cbn [andb]. now rewrite (int_id (b0 - 256)) by lia.
  - unfold int8, signed. cbv zeta. rewrite Z.mod_small by lia.
    destruct (Z.ltb_spec b0 (2 ^ (8 - 1))); lia.
Qed.

Lemma decodeExt_2 b0 b1 :
  0 <= b1 < 256 ->
  decodeExt [b0; b1] =
    if b0 =? 0xcc then (b1, None)
    else if b0 =? 0xd0 then (int8 b1, None)
    else (0, Some (ErrorString
           ("go-client/nvim: error decoding extension bytes " +:+ hex [b0; b1]))).
Proof.
  intros H. unfold decodeExt, len, at_. cbn [length nth Z.of_nat Pos.of_succ_nat Pos.succ].
  cbn [Z.eqb Pos.eqb andb].
  pose proof (signed_range 8 b1 ltac:(lia)) as Hr.
  rewrite (int_id b1) by lia. rewrite (int_id (int8 b1)) by (unfold int8; lia).
  destruct (b0 =? 0xcc); [reflexivity |].
  destruct (b0 =? 0xd0); reflexivity.
Qed.

Lemma decodeExt_3 b0 b1 b2 :
  0 <= b1 < 256 -> 0 <= b2 < 256 ->
  decodeExt [b0; b1; b2] =
    if b0 =? 0xcd then (b2 + b1 * 2 ^ 8, None)
    else if b0 =? 0xd1 then (int16 (b2 + b1 * 2 ^ 8), None)
    else (0, Some (ErrorString
           ("go-client/nvim: error decoding extension bytes " +:+ hex [b0; b1; b2]))).
Proof.
  intros H1 H2. unfold decodeExt, len, at_.
  cbn [length nth Z.of_nat Pos.of_succ_nat Pos.succ].
  cbn [Z.eqb Pos.eqb andb].
  rewrite join16_bytes by lia.
  pose proof (signed_range 16 (b2 + b1 * 2 ^ 8) ltac:(lia)) as Hr.
  rewrite (int_id (b2 + b1 * 2 ^ 8)) by lia.
  rewrite (int_id (int16 _)) by (unfold int16; lia).
  destruct (b0 =? 0xcd); [reflexivity |].
  destruct (b0 =? 0xd1); reflexivity.
Qed.

Lemma decodeExt_5 b0 b1 b2 b3 b4 :
  0 <= b1 < 256 -> 0 <= b2 < 256 -> 0 <= b3 < 256 -> 0 <= b4 < 256 ->
  decodeExt [b0; b1; b2; b3; b4] =
    if b0 =? 0xce then (b4 + b3 * 2 ^ 8 + b2 * 2 ^ 16 + b1 * 2 ^ 24, None)
    else if b0 =? 0xd2
         then (int32 (b4 + b3 * 2 ^ 8 + b2 * 2 ^ 16 + b1 * 2 ^ 24), None)
    else (0, Some (ErrorString
           ("go-client/nvim: error decoding extension bytes "
            +:+ hex [b0; b1; b2; b3; b4]))).
Proof.
  intros H1 H2 H3 H4. unfold decodeExt, len, at_.
  cbn [length nth Z.of_nat Pos.of_succ_nat Pos.succ].
  cbn [Z.eqb Pos.eqb andb].
  rewrite join32_bytes by lia.
  pose proof (signed_range 32 (b4 + b3 * 2 ^ 8 + b2 * 2 ^ 16 + b1 * 2 ^ 24)
                ltac:(lia)) as Hr.
  rewrite (int_id (b4 + b3 * 2 ^ 8 + b2 * 2 ^ 16 + b1 * 2 ^ 24)) by lia.
  rewrite (int_id (int32 _)) by (unfold int32; lia).
  destruct (b0 =? 0xce); [reflexivity |].
  destruct (b0 =? 0xd2); reflexivity.
Qed.

Lemma decodeExt_other_length q :
  len q <> 1 -> len q <> 2 -> len q <> 3 -> len q <> 5 ->
  decodeExt q
  = (0, Some (ErrorString
       ("go-client/nvim: error decoding extension bytes " +:+ hex q))).
Proof.
  intros H1 H2 H3 H5. unfold decodeExt.
  destruct (Z.eqb_spec (len q) 1); [lia |].
  destruct (Z.eqb_spec (len q) 2); [lia |].
  destruct (Z.eqb_spec (len q) 3); [lia |].
  destruct (Z.eqb_spec (len q) 5); [lia |].
  reflexivity.
Qed.

Lemma be_1 i : be 1 i = [byte i].
Proof. cbn [be]. change (8 * Z.of_nat 0) with 0. now rewrite Z.shiftr_0_r. Qed.

Lemma be_2 i : be 2 i = [byte (i / 2 ^ 8); byte i].
Proof.
  cbn [be]. change (8 * Z.of_nat 0) with 0. change (8 * Z.of_nat 1) with 8.
  now rewrite Z.shiftr_0_r, Z.shiftr_div_pow2 by lia.
Qed.

Lemma be_4 i :
  be 4 i = [byte (i / 2 ^ 24); byte (i / 2 ^ 16); byte (i / 2 ^ 8); byte i].
Proof.
  cbn [be]. change (8 * Z.of_nat 0) with 0. change (8 * Z.of_nat 1) with 8.
  change (8 * Z.of_nat 2) with 16. change (8 * Z.of_nat 3) with 24.
  now rewrite Z.shiftr_0_r, !Z.shiftr_div_pow2 by lia.
Qed.

Lemma bytes_sum_2 i : byte i + byte (i / 2 ^ 8) * 2 ^ 8 = i mod 2 ^ 16.
Proof. unfold byte. euclid. Qed.

Lemma bytes_sum_4 i :
  byte i + byte (i / 2 ^ 8) * 2 ^ 8 + byte (i / 2 ^ 16) * 2 ^ 16
  + byte (i / 2 ^ 24) * 2 ^ 24 = i mod 2 ^ 32.
Proof. unfold byte. euclid. Qed.

(** The fixed-width forms, written with the big-endian bytes of [i]. *)
Lemma decodeExt_be_forms i :
  (0 <= i < 2 ^ 8 -> decodeExt (0xcc :: be 1 i) = (i, None))
  /\ (0 <= i < 2 ^ 16 -> decodeExt (0xcd :: be 2 i) = (i, None))
  /\ (0 <= i < 2 ^ 32 -> decodeExt (0xce :: be 4 i) = (i, None))
  /\ (- 2 ^ 7 <= i < 2 ^ 7 -> decodeExt (0xd0 :: be 1 i) = (i, None))
  /\ (- 2 ^ 15 <= i < 2 ^ 15 -> decodeExt (0xd1 :: be 2 i) = (i, None))
  /\ (- 2 ^ 31 <= i < 2 ^ 31 -> decodeExt (0xd2 :: be 4 i) = (i, None)).
Proof.
  pose proof (byte_range i) as H0.
  pose proof (byte_range (i / 2 ^ 8)) as H1.
  pose proof (byte_range (i / 2 ^ 16)) as H2.
  pose proof (byte_range (i / 2 ^ 24)) as H3.
  rewrite be_1, be_2, be_4.
  rewrite !decodeExt_2, !decodeExt_3, !decodeExt_5 by assumption.
  cbn [Z.eqb Pos.eqb].
  rewrite bytes_sum_4, bytes_sum_2.
  repeat split; intros Hi.
  - unfold byte. now rewrite Z.mod_small by lia.
  - now rewrite Z.mod_small by lia.
  - now rewrite Z.mod_small by lia.
  - unfold int8, byte. change 256 with (2 ^ 8).
    now rewrite (signed_small 8) by lia.
  - unfold int16. now rewrite (signed_small 16) by lia.
  - unfold int32. now rewrite (signed_small 32) by lia.
Qed.

(** X2. [decodeExt] reads every MessagePack integer of at most 32 bits: what
    the encoder writes for a number from [-2^31] up to [2^32], in its
    shortest form, and each fixed-width form of 8, 16 and 32 bits, unsigned
    or signed, is decoded to that number with no error. *)
Theorem decodeExt_reads_integers (i : Z) :
  (- 2 ^ 31 <= i < 2 ^ 32 -> decodeExt (PackInt i).1 = (i, None))
  /\ (0 <= i < 2 ^ 8 -> decodeExt (0xcc :: be 1 i) = (i, None))
  /\ (0 <= i < 2 ^ 16 -> decodeExt (0xcd :: be 2 i) = (i, None))
  /\ (0 <= i < 2 ^ 32 -> decodeExt (0xce :: be 4 i) = (i, None))
  /\ (- 2 ^ 7 <= i < 2 ^ 7 -> decodeExt (0xd0 :: be 1 i) = (i, None))
  /\ (- 2 ^ 15 <= i < 2 ^ 15 -> decodeExt (0xd1 :: be 2 i) = (i, None))
  /\ (- 2 ^ 31 <= i < 2 ^ 31 -> decodeExt (0xd2 :: be 4 i) = (i, None)).
Proof.
  destruct (decodeExt_be_forms i) as (F1 & F2 & F4 & S1 & S2 & S4).
  split; [| repeat split; assumption].
  intros Hi. unfold PackInt, PackUint.
  destruct (Z.leb_spec 0 i).
  - destruct (Z.leb_spec i 0x7f); [apply decodeExt_fixpos; lia |].
    destruct (Z.leb_spec i 0xff); [apply F1; lia |].
    destruct (Z.leb_spec i 0xffff); [apply F2; lia |].
    destruct (Z.leb_spec i 0xffffffff); [apply F4; lia | lia].
  - destruct (Z.leb_spec (-32) i).
    + cbn [wrote fst]. pose proof (byte_range i).
      assert (Hb : byte i = i + 256) by (unfold byte; euclid).
      rewrite decodeExt_fixneg by lia. f_equal. lia.
    + destruct (Z.leb_spec (-0x80) i); [apply S1; lia |].
      destruct (Z.leb_spec (-0x8000) i); [apply S2; lia |].
      destruct (Z.leb_spec (-0x80000000) i); [apply S4; lia | lia].
Qed.

Lemma decodeExt_reads_integers_witness :
  - 2 ^ 31 <= 2 ^ 32 - 1 < 2 ^ 32
  /\ decodeExt (PackInt (2 ^ 32 - 1)).1 = (2 ^ 32 - 1, None).
Proof.
  split; [lia |]. apply (decodeExt_reads_integers (2 ^ 32 - 1)). lia.
Defined.

(** X3. On a slice of bytes, [decodeExt] returns either a number from
    [-2^31] up to [2^32] and no error, and then the slice has 1, 2, 3 or 5
    bytes, or the number 0 with an error: the empty slice, the 64-bit forms
    and every other length are refused. *)
Theorem decodeExt_range (q : bytes) :
  Forall (fun b => 0 <= b < 256) q ->
  match decodeExt q with
  | (i, None) =>
      - 2 ^ 31 <= i < 2 ^ 32 /\ (len q = 1 \/ len q = 2 \/ len q = 3 \/ len q = 5)
  | (i, Some _) => i = 0
  end.
Proof.
  intros Hq.
  destruct q as [| b0 [| b1 [| b2 [| b3 [| b4 [| b5 q]]]]]].
  - now rewrite decodeExt_other_length.
  - apply Forall_cons in Hq as [H0 _].
    destruct (Z.le_gt_cases b0 0x7f).
    { rewrite decodeExt_fixpos by lia. split; [lia | now left]. }
    destruct (Z.le_gt_cases 0xe0 b0).
    { rewrite decodeExt_fixneg by lia. split; [lia | now left]. }
    unfold decodeExt, len, at_. cbn [length nth Z.of_nat Pos.of_succ_nat].
    cbn [Z.eqb Pos.eqb andb].
    destruct (Z.leb_spec b0 0x7f); [lia |].
    destruct (Z.leb_spec 0xe0 b0); [lia | reflexivity].
  - apply Forall_cons in Hq as [_ Hq]. apply Forall_cons in Hq as [H1 _].
    rewrite decodeExt_2 by lia.
    pose proof (signed_range 8 b1 ltac:(lia)) as Hr.
    destruct (b0 =? 0xcc); [split; [lia | right; now left] |].
    destruct (b0 =? 0xd0); [split; [unfold int8; lia | right; now left] |].
    reflexivity.
  - apply Forall_cons in Hq as [_ Hq]. apply Forall_cons in Hq as [H1 Hq].
    apply Forall_cons in Hq as [H2 _].
    rewrite decodeExt_3 by lia.
    pose proof (signed_range 16 (b2 + b1 * 2 ^ 8) ltac:(lia)) as Hr.
    destruct (b0 =? 0xcd); [split; [lia | right; right; now left] |].
    destruct (b0 =? 0xd1); [split; [unfold int16; lia | right; right; now left] |].
    reflexivity.
  - now rewrite decodeExt_other_length.
  - apply Forall_cons in Hq as [_ Hq]. apply Forall_cons in Hq as [H1 Hq].
    apply Forall_cons in Hq as [H2 Hq]. apply Forall_cons in Hq as [H3 Hq].
    apply Forall_cons in Hq as [H4 _].
    rewrite decodeExt_5 by lia.
    pose proof (signed_range 32 (b4 + b3 * 2 ^ 8 + b2 * 2 ^ 16 + b1 * 2 ^ 24)
                  ltac:(lia)) as Hr.
    destruct (b0 =? 0xce); [split; [lia | now repeat right] |].
    destruct (b0 =? 0xd2); [split; [unfold int32; lia | now repeat right] |].
    reflexivity.
  - rewrite decodeExt_other_length; [reflexivity | | | |];
      unfold len; cbn [length]; lia.
Qed.

Lemma decodeExt_range_witness :
  Forall (fun b => 0 <= b < 256) [0xcf; 0; 0; 0; 0; 0; 0; 0; 1]
  /\ (decodeExt [0xcf; 0; 0; 0; 0; 0; 0; 0; 1]).1 = 0
  /\ (decodeExt [0xcf; 0; 0; 0; 0; 0; 0; 0; 1]).2 <> None.
Proof.
  assert (H : Forall (fun b => 0 <= b < 256) [0xcf; 0; 0; 0; 0; 0; 0; 0; 1])
    by (repeat (constructor; [lia |]); constructor).
  split; [exact H |].
  pose proof (decodeExt_range [0xcf; 0; 0; 0; 0; 0; 0; 0; 1] H) as Hr.
  destruct (decodeExt [0xcf; 0; 0; 0; 0; 0; 0; 0; 1]) as [i [e |]] eqn:Hd.
  - split; [exact Hr | discriminate].
  - exfalso. vm_compute in Hd. discriminate Hd.
Defined.

Section MoreClientProperties.

Variables exceptionError validationError : Z.
Variable Sprint : value -> string.
Variable rpc_Error : value -> string.

Local Abbreviation Execute' := (Execute exceptionError validationError).
Local Abbreviation fixError' := (fixError exceptionError validationError Sprint).
Local Abbreviation Nvim_call' := (Nvim_call exceptionError validationError Sprint).

(** ** fixError *)

(** X4. [fixError] changes an error only into another error: it returns nil
    exactly for nil. What it returns is never again an error value of the
    exception or validation kind, so applying it twice is applying it once,
    and the error of [Nvim.call] is never such a raw error value. *)
Theorem fixError_settles (sm sm' : string) (e : option error) :
  (fixError' sm e = None <-> e = None)
  /\ is_application_error exceptionError validationError (fixError' sm e) = false
  /\ fixError' sm' (fixError' sm e) = fixError' sm e
  /\ (forall ep result args h,
        is_application_error exceptionError validationError
          (Nvim_call' ep sm result args h).2 = false).
Proof.
  assert (Happ : forall s x,
            is_application_error exceptionError validationError (fixError' s x) = false).
  { intros s x. unfold fixError, is_application_error.
    destruct x as [[| v |] |]; try reflexivity.
    destruct v as [| | | | | | | [[| a0 [| a1 [| ? ?]]] |] | |]; try reflexivity.
    destruct (is_kind a0 exceptionError) eqn:H1; [reflexivity |].
    destruct (is_kind a0 validationError) eqn:H2; [reflexivity |].
    now rewrite H1, H2. }
  assert (Hid : forall s x,
            is_application_error exceptionError validationError x = false ->
            fixError' s x = x).
  { intros s x. unfold fixError, is_application_error.
    destruct x as [[| v |] |]; try reflexivity.
    destruct v as [| | | | | | | [[| a0 [| a1 [| ? ?]]] |] | |]; try reflexivity.
    intros H. apply orb_false_iff in H as [-> ->]. reflexivity. }
  split; [| split; [| split]].
  - split; [| now intros ->].
    unfold fixError. destruct e as [[| v |] |]; try discriminate; [| reflexivity].
    destruct v as [| | | | | | | [[| a0 [| a1 [| ? ?]]] |] | |]; try discriminate.
    destruct (is_kind a0 exceptionError); [discriminate |].
    destruct (is_kind a0 validationError); discriminate.
  - apply Happ.
  - apply Hid, Happ.
  - intros ep result args h. unfold Nvim_call.
    destruct (ep_Call ep _); cbn [snd]; apply Happ.
Qed.

(** ** Batches: what is recorded *)

Lemma queue_unpoisoned b c :
  err b = None ->
  err (queue b c) = (Encode (VSlice (Some (args_of c)))).2
  /\ sms (queue b c) = sms b ++ [q_sm c]
  /\ results (queue b c) = results b ++ [q_result c].
Proof.
  intros He. unfold queue, call, args_of. rewrite He. cbn [err sms results].
  repeat split.
  replace (match q_args c with None => Some emptyArgs | Some _ => q_args c end)
    with (Some match q_args c with None => [] | Some a => a end)
    by now destruct (q_args c).
  unfold ignoring, andThen. cbn [fst snd].
  now destruct (Encode _) as [qa [ea |]].
Qed.

Lemma queue_recorded b c :
  length (sms b) = length (results b) ->
  length (sms (queue b c)) = length (results (queue b c))
  /\ (length (sms b) <= length (sms (queue b c)) <= S (length (sms b)))%nat.
Proof.
  intros Hl. destruct (err b) as [e |] eqn:He.
  - unfold queue. rewrite (call_poisoned b _ _ _ e He). lia.
  - destruct (queue_unpoisoned b c He) as (_ & -> & ->).
    rewrite !length_app. cbn [length]. lia.
Qed.

(** X5. On every batch made from a new one by calls, whether a call failed
    or not, the list of method names and the list of result parameters have
    the same length, at most the number of calls made, and exactly that
    number while no call has failed: [b.sms[i]] and [b.results[i]] belong to
    the same call. *)
Theorem batch_lists_agree (cs : list Queued) :
  length (sms (queue_all NewBatch cs)) = length (results (queue_all NewBatch cs))
  /\ (length (sms (queue_all NewBatch cs)) <= length cs)%nat
  /\ (err (queue_all NewBatch cs) = None ->
      sms (queue_all NewBatch cs) = map q_sm cs
      /\ results (queue_all NewBatch cs) = map q_result cs).
Proof.
  assert (H : forall b,
            length (sms b) = length (results b) ->
            length (sms (queue_all b cs)) = length (results (queue_all b cs))
            /\ (length (sms (queue_all b cs)) <= length (sms b) + length cs)%nat).
  { induction cs as [| c cs IH]; intros b Hb; [cbn; lia |].
    cbn [queue_all fold_left length].
    destruct (queue_recorded b c Hb) as [Hq Hle].
    destruct (IH _ Hq) as [IH1 IH2]. fold (queue_all (queue b c) cs) in *.
    split; [exact IH1 | lia]. }
  destruct (H NewBatch eq_refl) as [H1 H2]. cbn [NewBatch sms length] in H2.
  split; [exact H1 |]. split; [lia |].
  intros He. destruct (queue_all_ok cs NewBatch He) as (_ & _ & Hs & Hr & _).
  cbn [NewBatch sms results app] in Hs, Hr. now split.
Qed.

Lemma queue_all_encoded cs : forall b,
  err b = None ->
  Forall (fun c => (Encode (VSlice (Some (args_of c)))).2 = None) cs ->
  err (queue_all b cs) = None
  /\ sms (queue_all b cs) = sms b ++ map q_sm cs
  /\ results (queue_all b cs) = results b ++ map q_result cs.
Proof.
  induction cs as [| c cs IH]; intros b Hb Hcs.
  - cbn. now rewrite !app_nil_r.
  - apply Forall_cons in Hcs as [Hc Hcs].
    destruct (queue_unpoisoned b c Hb) as (He & Hs & Hr).
    rewrite Hc in He.
    destruct (IH (queue b c) He Hcs) as (IHe & IHs & IHr).
    cbn [queue_all fold_left map]. fold (queue_all (queue b c) cs).
    rewrite IHe, IHs, IHr, Hs, Hr, <- !app_assoc. now repeat split.
Qed.

(** X6. When the calls [before] encode and the call [c] after them does not,
    the batch keeps the error of [c], whatever calls come [after]: it holds
    the method names and result parameters of [before] and of [c] itself,
    and none of the later calls. *)
Theorem batch_first_failure (before after : list Queued) (c : Queued) (e : error) :
  Forall (fun c => (Encode (VSlice (Some (args_of c)))).2 = None) before ->
  (Encode (VSlice (Some (args_of c)))).2 = Some e ->
  err (queue_all NewBatch (before ++ c :: after)) = Some e
  /\ sms (queue_all NewBatch (before ++ c :: after)) = map q_sm (before ++ [c])
  /\ results (queue_all NewBatch (before ++ c :: after))
     = map q_result (before ++ [c]).
Proof.
  intros Hbefore Hc.
  destruct (queue_all_encoded before NewBatch eq_refl Hbefore) as (He & Hs & Hr).
  destruct (queue_unpoisoned _ c He) as (Hce & Hcs & Hcr).
  rewrite Hc in Hce.
  unfold queue_all in *. rewrite fold_left_app. cbn [fold_left].
  fold (queue_all NewBatch before) in *.
  fold (queue_all (queue (queue_all NewBatch before) c) after).
  rewrite (queue_all_poisoned _ after e Hce).
  rewrite Hce, Hcs, Hcr, Hs, Hr, !map_app. cbn. now repeat split.
Qed.

Lemma batch_first_failure_witness :
  Forall (fun c => (Encode (VSlice (Some (args_of c)))).2 = None) three_calls
  /\ (Encode (VSlice (Some (args_of bad_call)))).2
     = Some (ErrorString "msgpack: unsupported type")
  /\ err (queue_all NewBatch (three_calls ++ bad_call :: three_calls))
     = Some (ErrorString "msgpack: unsupported type")
  /\ sms (queue_all NewBatch (three_calls ++ bad_call :: three_calls))
     = map q_sm (three_calls ++ [bad_call])
  /\ results (queue_all NewBatch (three_calls ++ bad_call :: three_calls))
     = map q_result (three_calls ++ [bad_call]).
Proof.
  assert (H1 : Forall (fun c => (Encode (VSlice (Some (args_of c)))).2 = None)
                 three_calls)
    by (repeat (constructor; [reflexivity |]); constructor).
  split; [exact H1 |]. split; [reflexivity |].
  exact (batch_first_failure three_calls three_calls bad_call
           (ErrorString "msgpack: unsupported type") H1 eq_refl).
Defined.

(** ** Execute: success, and what is left alone *)

Lemma Execute_memory_cases ep b h :
  memory (Execute' ep b h) = h
  \/ exists res, memory (Execute' ep b h) = store_results (Results res) (results b) h.
Proof.
  unfold Execute, Execute_body. cbn [memory].
  destruct (err b) as [e |]; [now left |].
  destruct (ep_CallAtomic ep (atomic_request b)) as [e | res]; [now left |].
  right. exists res.
  destruct (Error res) as [f |]; [| reflexivity]. now destruct (_ || _).
Qed.


(** X8. [Execute] returns nil only when the batch was not poisoned, the
    request succeeded and the reply reports no failure; in every other case
    it returns an error. *)
Theorem Execute_nil_iff (ep : Endpoint) (b : Batch) (h : heap) :
  (returned (Execute' ep b h) = Returned None
   <-> err b = None
       /\ exists res, ep_CallAtomic ep (atomic_request b) = inr res
                      /\ Error res = None)
  /\ (returned (Execute' ep b h) <> Returned None ->
      exists e, returned (Execute' ep b h) = Returned (Some e)).
Proof.
  destruct (err b) as [e |] eqn:He.
  { assert (H : returned (Execute' ep b h) = Returned (Some e))
      by (unfold Execute, Execute_body; now rewrite He).
    rewrite H. split; [split; [discriminate | intros [? _]; discriminate] | eauto]. }
  destruct (ep_CallAtomic ep (atomic_request b)) as [e | res] eqn:Hep.
  { assert (H : returned (Execute' ep b h) = Returned (Some e))
      by (unfold Execute, Execute_body; now rewrite He, Hep).
    rewrite H.
    split; [split; [discriminate | intros (_ & r & Hr & _); discriminate Hr] | eauto]. }
  destruct (Error res) as [f |] eqn:Hf.
  - rewrite (Execute_failure_returned _ _ ep b h res f He Hep Hf).
    destruct (_ || _) eqn:Hg.
    + split; [split; [discriminate | intros (_ & r & [= <-] & Hr); congruence] | eauto].
    + apply guard_false in Hg as [Hi _].
      destruct (index_sms_in_range (sms b) (Index f) Hi) as (sm & _ & ->).
      split; [split; [discriminate | intros (_ & r & [= <-] & Hr); congruence] | eauto].
  - assert (H : returned (Execute' ep b h) = Returned None)
      by (unfold Execute, Execute_body; now rewrite He, Hep, Hf).
    rewrite H. split; [split; [eauto | reflexivity] | congruence].
Qed.

(** X9. [Execute] writes only through the result parameters of the batch: a
    variable of the caller that no call of the batch names as its result
    keeps its value, whatever the peer replies. *)
Theorem Execute_frame (ep : Endpoint) (b : Batch) (h : heap) (a : addr) :
  (forall k, results b !! k <> Some (Some a)) ->
  memory (Execute' ep b h) !! a = h !! a.
Proof.
  intros Hno.
  destruct (Execute_memory_cases ep b h) as [-> | [res ->]]; [reflexivity |].
  apply store_results_other. intros k _. apply Hno.
Qed.

(** ** The same message on both paths *)

(** X10. A failure of a call reads the same whether the call was made
    directly or in a batch: the message of the [BatchError] that [Execute]
    returns for a failure of kind [t] with message [msg] at a call of method
    [sm] is the message of the error [fixError] makes of the error value
    [[t, msg]] for [sm]. The kinds differ and [%v] prints a string as it
    is. *)
Theorem BatchError_message (ep : Endpoint) (b : Batch) (h : heap)
    (res : AtomicResult) (f : Failure) (sm : string) :
  exceptionError <> validationError ->
  (forall s, Sprint (VString s) = s) ->
  err b = None ->
  ep_CallAtomic ep (atomic_request b) = inr res ->
  Error res = Some f ->
  0 <= Index f < len (sms b) ->
  Type__ f = exceptionError \/ Type__ f = validationError ->
  sms b !! Z.to_nat (Index f) = Some sm ->
  exists e,
    returned (Execute' ep b h) = Returned (Some (BatchError (Index f) e))
    /\ Some (error_Error rpc_Error (BatchError (Index f) e))
       = option_map (error_Error rpc_Error)
           (fixError' sm
              (Some (RpcError (VSlice (Some [VInt64 (Type__ f);
                                             VString (Message f)]))))).
Proof.
  intros Hne Hs He Hep Hf Hi Ht Hsm.
  destruct (Execute_failure_in_range _ _ ep b h res f He Hep Hf Hi Ht)
    as (sm' & Hsm' & Hret).
  rewrite Hsm in Hsm'. injection Hsm' as <-.
  eexists. split; [exact Hret |].
  cbn [error_Error fixError is_kind option_map]. rewrite Hs.
  destruct Ht as [Ht | Ht]; rewrite Ht.
  - rewrite Z.eqb_refl.
    destruct (Z.eqb_spec exceptionError validationError); [contradiction |].
    reflexivity.
  - rewrite Z.eqb_refl.
    destruct (Z.eqb_spec validationError exceptionError); [congruence |].
    reflexivity.
Qed.

End MoreClientProperties.


Lemma Execute_frame_witness :
  (forall k, results (queue_all NewBatch three_calls) !! k <> Some (Some 5%nat))
  /\ memory (Execute 0 1 (peer (inr validation_failure))
               (queue_all NewBatch three_calls) (<[5%nat := VBool true]> defaults))
       !! 5%nat
     = (<[5%nat := VBool true]> defaults) !! 5%nat.
Proof.
  assert (H : forall k,
            results (queue_all NewBatch three_calls) !! k <> Some (Some 5%nat))
    by (intros [| [| [| k]]]; discriminate).
  split; [exact H |].
  exact (Execute_frame 0 1 (peer (inr validation_failure))
           (queue_all NewBatch three_calls) (<[5%nat := VBool true]> defaults)
           5%nat H).
Defined.

Lemma BatchError_message_witness :
  0 <> 1
  /\ (forall s, sprint_string (VString s) = s)
  /\ exists e,
       returned (Execute 0 1 (peer (inr validation_failure))
                   (queue_all NewBatch three_calls) defaults)
       = Returned (Some (BatchError 1 e))
       /\ Some (error_Error sprint_string (BatchError 1 e))
          = option_map (error_Error sprint_string)
              (fixError 0 1 sprint_string "bad-value"
                 (Some (RpcError (VSlice (Some [VInt64 1;
                                                VString "Invalid value"]))))).
Proof.
  assert (H1 : 0 <> 1) by lia.
  assert (H2 : forall s, sprint_string (VString s) = s) by reflexivity.
  split; [exact H1 |]. split; [exact H2 |].
  refine (BatchError_message 0 1 sprint_string sprint_string
            (peer (inr validation_failure)) (queue_all NewBatch three_calls)
            defaults validation_failure
            {| Index := 1; Type__ := 1; Message := "Invalid value" |} "bad-value"
            H1 H2 eq_refl eq_refl eq_refl _ _ eq_refl).
  - unfold len. simpl. lia.
  - right. reflexivity.
Defined.

(** ** Close: its error and its timer *)

(** X11. [Close] returns nil exactly when every step that applies returned
    nil, and an error of closing the endpoint is the error [Close] returns,
    whatever the child and [Serve] do. *)
Theorem Close_nil_iff (v : Nvim) :
  ((Close v).2 = None <-> Forall (fun e => e = None) (Close_errors v))
  /\ (forall e, ep_Close (ep v) = Some e -> (Close v).2 = Some e).
Proof.
  destruct v as [e' [[[[[e1 |] | [e1 |]] |]] |] [[[e2 |] |] |]];
    unfold Close_errors; cbn;
    destruct (ep_Close e') as [e0 |]; cbn;
    (split; [rewrite ?Forall_cons, ?Forall_nil; intuition congruence | congruence]).
Qed.

(** X12. [Close] starts the timer first, exactly when the client has a
    started child process, and then stops it last; the endpoint is closed
    before any waiting, and it is closed once. *)
Theorem Close_timer_and_order (v : Nvim) :
  exists waits,
    (Close v).1
    = (if child_started v then [AfterFunc 10] else [])
      ++ EpClose :: waits
      ++ (if child_started v then [Stop] else [])
    /\ Forall (fun x => x ∈ [Kill; Wait; ReceiveServe; After 10]) waits
    /\ (Kill ∈ waits -> child_started v = true).
Proof.
  exists (match cmd v with Some c => (cmd_Wait c).1 | None => [] end
          ++ match serveCh v with
             | Some (Reports _) => [ReceiveServe]
             | Some Silent => [After 10]
             | None => []
             end).
  destruct v as [e' [[[[[e1 |] | [e1 |]] |]] |] [[[e2 |] |] |]];
    cbn; (split; [reflexivity |]);
    (split;
       [repeat (constructor; [rewrite !elem_of_cons; tauto |]); constructor
       | rewrite ?elem_of_cons, ?elem_of_nil; intuition congruence]).
Qed.

(** ** ChannelID *)

Lemma ChannelID_calls_cached (info : error + value -> Z) (es : list Endpoint) c :
  c <> 0 -> ChannelID_calls info es c = ([], c, repeat c (length es)).
Proof.
  intros Hc. induction es as [| e es IH]; [reflexivity |].
  cbn [ChannelID_calls length repeat]. unfold ChannelID.
  destruct (Z.eqb_spec c 0); [contradiction |]. cbn [negb].
  now rewrite IH.
Qed.

(** X13. [ChannelID] asks the peer while the channel id it has is 0, once
    per call, and keeps the first id that is not 0: from that call on every
    call returns that id and sends nothing, whatever the peer would
    answer. A failed call, or an answer of 0, is asked again. *)
Theorem ChannelID_asks_until_nonzero (info : error + value -> Z)
    (zeros later : list Endpoint) (e : Endpoint) :
  let req := {| method := "nvim_get_api_info"; params := None |} in
  Forall (fun z => info (ep_Call z req) = 0) zeros ->
  info (ep_Call e req) <> 0 ->
  ChannelID_calls info (zeros ++ e :: later) 0
  = (repeat req (length zeros) ++ [req],
     info (ep_Call e req),
     repeat 0 (length zeros)
     ++ info (ep_Call e req) :: repeat (info (ep_Call e req)) (length later)).
Proof.
  intros req Hz He.
  induction zeros as [| z zeros IH].
  - cbn [app ChannelID_calls length repeat]. unfold ChannelID. cbn [Z.eqb negb].
    fold req. now rewrite (ChannelID_calls_cached info later _ He).
  - apply Forall_cons in Hz as [Hz0 Hz].
    cbn [app ChannelID_calls length repeat]. unfold ChannelID at 1.
    cbn [Z.eqb negb]. fold req. rewrite Hz0, (IH Hz). reflexivity.
Qed.

Lemma ChannelID_asks_until_nonzero_witness :
  Forall (fun z => first_number
                     (ep_Call z {| method := "nvim_get_api_info"; params := None |}) = 0)
    [peer (inl (ErrorString "EOF")); api_info_peer 0]
  /\ first_number (ep_Call (api_info_peer 3)
                     {| method := "nvim_get_api_info"; params := None |}) <> 0
  /\ ChannelID_calls first_number
       ([peer (inl (ErrorString "EOF")); api_info_peer 0]
        ++ api_info_peer 3 :: [api_info_peer 4; api_info_peer 0]) 0
     = (repeat {| method := "nvim_get_api_info"; params := None |} 2
        ++ [{| method := "nvim_get_api_info"; params := None |}],
        3, repeat 0 2 ++ 3 :: repeat 3 2).
Proof.
  assert (H1 : Forall (fun z => first_number
                 (ep_Call z {| method := "nvim_get_api_info"; params := None |}) = 0)
                 [peer (inl (ErrorString "EOF")); api_info_peer 0])
    by (repeat (constructor; [reflexivity |]); constructor).
  assert (H2 : first_number (ep_Call (api_info_peer 3)
                 {| method := "nvim_get_api_info"; params := None |}) <> 0)
    by (simpl; lia).
  split; [exact H1 |]. split; [exact H2 |].
  exact (ChannelID_asks_until_nonzero first_number
           [peer (inl (ErrorString "EOF")); api_info_peer 0]
           [api_info_peer 4; api_info_peer 0] (api_info_peer 3) H1 H2).
Defined.

(** ** pack and unpack on concatenations *)

Lemma pack_from_buf vs : forall buf,
  Helpers.pack_from buf vs
  = match Helpers.pack_from [] vs with
    | inr q => inr (buf ++ q)
    | inl e => inl e
    end.
Proof.
  induction vs as [| v vs IH]; intros buf; cbn [Helpers.pack_from].
  - now rewrite app_nil_r.
  - destruct (Helpers.pack1 v) as [q [e |]]; [reflexivity |].
    rewrite (IH (buf ++ q)), (IH ([] ++ q)).
    destruct (Helpers.pack_from [] vs); [reflexivity |].
    cbn [app]. now rewrite app_assoc.
Qed.

(** X14. [pack] of two lists one after the other is the bytes of the first
    followed by the bytes of the second; the first value that cannot be
    packed decides the error, whatever follows it, and then no bytes are
    returned. *)
Theorem pack_app (vs ws : list Helpers.goval) :
  Helpers.pack (vs ++ ws)
  = match Helpers.pack vs, Helpers.pack ws with
    | inl e, _ => inl e
    | inr q1, inl e => inl e
    | inr q1, inr q2 => inr (q1 ++ q2)
    end.
Proof.
  unfold Helpers.pack. generalize (@nil Z) at 1 2 as buf.
  induction vs as [| v vs IH]; intros buf; cbn [app Helpers.pack_from].
  - rewrite pack_from_buf. destruct (Helpers.pack_from [] ws); reflexivity.
  - destruct (Helpers.pack1 v) as [q [e |]]; [reflexivity |].
    apply IH.
Qed.





(** ** Extension values through the codec *)

Lemma PackExtension_header k (data : bytes) :
  len data < 2 ^ 32 ->
  (PackExtension k data).2 = None
  /\ header (PackExtension k data).1
       (mkDecoder Extension (len data) data (int8 (byte k))).
Proof.
  intros Hd. pose proof (len_nonneg data) as Hn.
  unfold PackExtension, header. cbv zeta.
  assert (Hfix : forall c cnt,
            (forall q, Unpack (c :: q) = unpack_ext cnt q) -> len data = cnt ->
            forall rest, Unpack ((c :: byte k :: data) ++ rest)
                         = Unpacked (mkDecoder Extension (len data) data
                                       (int8 (byte k))) rest).
  { intros c cnt Hc Hcnt rest. cbn [app]. rewrite Hc. unfold unpack_ext.
    rewrite <- Hcnt. apply unpack_payload_app. }
  assert (Hsized : forall c w,
            (forall q, Unpack (c :: q) = unpack_ext_sized w q) ->
            len data < 2 ^ (8 * Z.of_nat w) ->
            forall rest, Unpack ((c :: be w (len data) ++ byte k :: data) ++ rest)
                         = Unpacked (mkDecoder Extension (len data) data
                                       (int8 (byte k))) rest).
  { intros c w Hc Hw rest. cbn [app]. rewrite <- app_assoc, Hc.
    unfold unpack_ext_sized. rewrite read_be_be, Z.mod_small by lia.
    cbn [app]. unfold unpack_ext. apply unpack_payload_app. }
  destruct (Z.eqb_spec (len data) 1);
    [split; [reflexivity | now apply (Hfix _ 1)] |].
  destruct (Z.eqb_spec (len data) 2);
    [split; [reflexivity | now apply (Hfix _ 2)] |].
  destruct (Z.eqb_spec (len data) 4);
    [split; [reflexivity | now apply (Hfix _ 4)] |].
  destruct (Z.eqb_spec (len data) 8);
    [split; [reflexivity | now apply (Hfix _ 8)] |].
  destruct (Z.eqb_spec (len data) 16);
    [split; [reflexivity | now apply (Hfix _ 16)] |].
  destruct (Z.leb_spec (len data) 0xff);
    [split; [reflexivity | apply (Hsized _ 1%nat); [reflexivity | cbn; lia]] |].
  destruct (Z.leb_spec (len data) 0xffff);
    [split; [reflexivity | apply (Hsized _ 2%nat); [reflexivity | cbn; lia]] |].
  destruct (Z.leb_spec (len data) 0xffffffff); [| lia].
  split; [reflexivity | apply (Hsized _ 4%nat); [reflexivity | cbn; lia]].
Qed.

(** X16. The test extension round trip, for a payload of any length below
    [2^32]: what [MarshalMsgPack] writes is read by [Unpack] as one
    extension value, from which [UnmarshalMsgPack] takes the payload back,
    with no error and nothing skipped. A value that is not an extension 1
    is refused with a convert error, skipped, and leaves [x.data] as it
    was. *)
Theorem TestExtension_roundtrip {T} (data old : bytes) (x : T) :
  len data < 2 ^ 32 ->
  (exists d,
     header (TestExtension.MarshalMsgPack data).1 d
     /\ TestExtension.UnmarshalMsgPack old d x = (data, None, false))
  /\ forall d, DType d <> Extension \/ DExtension d <> 1 ->
       TestExtension.UnmarshalMsgPack old d x
       = (old, Some {| SrcType := DType d; DestType := x |}, true).
Proof.
  intros Hd. split.
  - destruct (PackExtension_header 1 data Hd) as [_ Hh].
    eexists. split; [exact Hh | reflexivity].
  - intros d Hmis. unfold TestExtension.UnmarshalMsgPack.
    destruct Hmis as [Ht | He].
    + destruct (DType d); try reflexivity. contradiction.
    + destruct (Z.eqb_spec (DExtension d) 1); [contradiction |].
      now rewrite orb_true_r.
Qed.

Lemma TestExtension_roundtrip_witness :
  len [1; 2; 3] < 2 ^ 32
  /\ exists d,
       header (TestExtension.MarshalMsgPack [1; 2; 3]).1 d
       /\ TestExtension.UnmarshalMsgPack [] d tt = ([1; 2; 3], None, false).
Proof.
  assert (H : len [1; 2; 3] < 2 ^ 32) by (unfold len; simpl; lia).
  split; [exact H |].
  exact (proj1 (TestExtension_roundtrip [1; 2; 3] [] tt H)).
Defined.



(** ** Making a client *)

Lemma contains_colon_spec (address : string) :
  Connect.contains_colon address = true
  <-> exists a b, address = a +:+ String ":" b.
Proof.
  induction address as [| c rest IH]; cbn.
  - split; [discriminate |]. intros ([| ? ?] & b & H); discriminate H.
  - destruct (Ascii.eqb_spec c ":"%char) as [-> | Hc]; cbn.
    + split; [| reflexivity]. intros _. now exists "", rest.
    + rewrite IH. split.
      * intros (a & b & ->). now exists (String c a), b.
      * intros ([| c' a] & b & H); cbn in H; injection H as Hc' Hrest.
        -- congruence.
        -- now exists a, b.
Qed.

Local Ltac conn_solve :=
  repeat match goal with
         | |- _ /\ _ => split
         | |- _ <-> _ => split
         | |- ~ _ => intro
         | |- forall _, _ => intro
         | H : exists _, _ |- _ => destruct H
         | H : _ /\ _ |- _ => destruct H
         | H : _ \/ _ |- _ => destruct H
         | H : False |- _ => destruct H
         | H : _ ∈ [] |- _ => apply elem_of_nil in H
         | H : _ ∈ _ :: _ |- _ => apply elem_of_cons in H
         | H : Returned (Some _, _) = Returned (Some ?v, _) |- _ =>
             is_var v; injection H as <- <-; cbn
         end;
  try congruence; eauto;
  try (rewrite ?elem_of_cons; auto).

Section ConnectProperties.

Variables Context Logf Conn : Type.
Variable Background : Context.
Variable log_Printf : Logf.

Local Abbreviation apply_options' := (Connect.apply_options Background log_Printf).
Local Abbreviation NewChildProcess' := (Connect.NewChildProcess Background log_Printf).
Local Abbreviation NewEmbedded' := (Connect.NewEmbedded Background log_Printf).
Local Abbreviation Dial' := (Connect.Dial (Conn := Conn) Background log_Printf).

Lemma apply_options_app (before after : list (Connect.ChildProcessOption Context Logf)) :
  apply_options' (before ++ after)
  = fold_left (fun cpos cpo => cpo cpos) after (apply_options' before).
Proof. unfold Connect.apply_options. apply fold_left_app. Qed.

Lemma fold_options_keep {A} (f : Connect.childProcessOptions Context Logf -> A)
    (after : list (Connect.ChildProcessOption Context Logf)) :
  Forall (fun o => forall cpos, f (o cpos) = f cpos) after ->
  forall cpos, f (fold_left (fun cpos cpo => cpo cpos) after cpos) = f cpos.
Proof.
  induction 1 as [| o after Ho _ IH]; intros cpos; cbn; [reflexivity |].
  now rewrite IH, Ho.
Qed.

(** X18. [NewChildProcess] returns a client or an error, never both and never
    neither, unless [New] fails, the one case in which it panics. It returns
    a client exactly when both pipes, [Start] and [New] succeed. The stdin
    pipe is closed exactly when it was made and the stdout pipe could not be;
    the command is started at most once, and only when both pipes were made;
    [Serve] is started only for a client that is returned, and then the
    client has a [serveCh]. *)
Theorem NewChildProcess_outcome (options : list (Connect.ChildProcessOption Context Logf))
    (w : Connect.System Logf) :
  let steps := (NewChildProcess' options w).1 in
  let out := (NewChildProcess' options w).2 in
  let cpos := apply_options' options in
  let made := Connect.StartCommand (Connect.ctx cpos) (Connect.command cpos)
                (Connect.args cpos) (Connect.env cpos) (Connect.dir cpos) in
  (match out with
   | Returned (Some v, err) =>
       err = None
       /\ cmd v = Some {| Process := Some (Connect.child w) |}
       /\ (exists e, Connect.New w (Connect.logf cpos) = inr e /\ ep v = e)
       /\ serveCh v = (if Connect.serve cpos then Some (Connect.serving w) else None)
       /\ steps = made :: (if Connect.serve cpos then [Connect.StartServe] else [])
   | Returned (None, err) =>
       err <> None
       /\ err = first_error [Connect.StdinPipe w; Connect.StdoutPipe w; Connect.Start w]
       /\ Connect.StartServe ∉ steps
   | Panicked _ =>
       steps = [made] /\ exists e, Connect.New w (Connect.logf cpos) = inl e
   end)
  /\ ((exists v err, out = Returned (Some v, err))
      <-> Connect.StdinPipe w = None /\ Connect.StdoutPipe w = None
          /\ Connect.Start w = None
          /\ exists e, Connect.New w (Connect.logf cpos) = inr e)
  /\ (Connect.CloseStdin ∈ steps
      <-> Connect.StdinPipe w = None /\ Connect.StdoutPipe w <> None)
  /\ (made ∈ steps
      <-> Connect.StdinPipe w = None /\ Connect.StdoutPipe w = None).
Proof.
  cbv zeta. unfold Connect.NewChildProcess.
  destruct (Connect.StdinPipe w) as [e1 |] eqn:H1;
    [| destruct (Connect.StdoutPipe w) as [e2 |] eqn:H2;
       [| destruct (Connect.Start w) as [e3 |] eqn:H3;
          [| destruct (Connect.New w _) as [e4 | e4] eqn:H4;
             [| destruct (Connect.serve _) eqn:H5]]]];
    cbn; conn_solve.
Qed.

(** X19. Options are applied in the order given: after [ChildProcessServe b],
    followed only by options that leave [serve] alone, [serve] is [b]
    whatever came before. So [NewChildProcess] starts [Serve] only when [b]
    is true, and a client it returns has a [serveCh] exactly then. *)
Theorem ChildProcessServe_last_wins
    (before after : list (Connect.ChildProcessOption Context Logf)) (b : bool)
    (w : Connect.System Logf) :
  Forall (fun o => forall cpos, Connect.serve (o cpos) = Connect.serve cpos) after ->
  let options := before ++ Connect.ChildProcessServe b :: after in
  Connect.serve (apply_options' options) = b
  /\ (Connect.StartServe ∈ (NewChildProcess' options w).1 -> b = true)
  /\ forall v err,
       (NewChildProcess' options w).2 = Returned (Some v, err) ->
       serveCh v = (if b then Some (Connect.serving w) else None)
       /\ (Connect.StartServe ∈ (NewChildProcess' options w).1 <-> b = true).
Proof.
  intros Hafter options.
  assert (Hserve : Connect.serve (apply_options' options) = b).
  { unfold options. rewrite apply_options_app. cbn [fold_left].
    now rewrite (fold_options_keep Connect.serve after Hafter). }
  split; [exact Hserve |].
  unfold Connect.NewChildProcess. fold options. rewrite Hserve.
  destruct (Connect.StdinPipe w) as [e1 |];
    [| destruct (Connect.StdoutPipe w) as [e2 |];
       [| destruct (Connect.Start w) as [e3 |];
          [| destruct (Connect.New w _) as [e4 | e4];
             [| destruct b]]]];
    cbn; conn_solve.
Qed.

(** X20. [NewEmbedded] starts the command with [--embed] before the
    arguments of the caller, under the path of the options or [nvim] when
    that is empty, never under an empty name, with the background context.
    The [Logf] of the options is not used: [New] gets [log.Printf]. [Serve]
    is never started, the client has no [serveCh], and [Close] on it starts
    the kill timer and does not wait for [Serve]. *)
Theorem NewEmbedded_fixed (o : Connect.EmbedOptions Logf) (l : option Logf)
    (w : Connect.System Logf) :
  let r := NewEmbedded' (Some o) w in
  r = NewEmbedded'
        (Some {| Connect.Args := Connect.Args o; Connect.Dir := Connect.Dir o;
                 Connect.Env := Connect.Env o; Connect.Path := Connect.Path o;
                 Connect.EmbedLogf := l |}) w
  /\ r = NewEmbedded' (Some o)
           {| Connect.StdinPipe := Connect.StdinPipe w;
              Connect.StdoutPipe := Connect.StdoutPipe w;
              Connect.Start := Connect.Start w;
              Connect.New := fun _ => Connect.New w log_Printf;
              Connect.child := Connect.child w;
              Connect.serving := Connect.serving w |}
  /\ (Connect.StartServe ∉ r.1)
  /\ (forall c name a e d,
        Connect.StartCommand c name a e d ∈ r.1 ->
        c = Background
        /\ name = (if String.eqb (Connect.Path o) "" then "nvim" else Connect.Path o)
        /\ name <> ""
        /\ a = "--embed" :: Connect.Args o
        /\ e = Connect.Env o
        /\ d = Connect.Dir o)
  /\ forall v err,
       r.2 = Returned (Some v, err) ->
       serveCh v = None
       /\ child_started v = true
       /\ head (Close v).1 = Some (AfterFunc 10)
       /\ (ReceiveServe ∉ (Close v).1)
       /\ (After 10 ∉ (Close v).1).
Proof.
  cbv zeta. unfold Connect.NewEmbedded, Connect.NewChildProcess. cbn.
  assert (Hname : (if String.eqb (Connect.Path o) "" then "nvim" else Connect.Path o)
                  <> "").
  { destruct (String.eqb_spec (Connect.Path o) ""); [discriminate | assumption]. }
  destruct (Connect.StdinPipe w) as [e1 |];
    [| destruct (Connect.StdoutPipe w) as [e2 |];
       [| destruct (Connect.Start w) as [e3 |];
          [| destruct (Connect.New w _) as [e4 | e4]]]];
    cbn; conn_solve;
    try match goal with
        | H : Connect.StartCommand _ _ _ _ _ = _ |- _ => injection H as -> -> -> -> ->
        end;
    try reflexivity; try assumption.
  all: unfold Close in *; cbn in *;
    destruct (Connect.child w) as [st | st]; cbn in *;
    destruct (ep_Close e4); cbn in *; conn_solve.
Qed.

(** X21. [Dial] dials once, on [tcp] exactly when the address has a colon in
    it and on [unix] otherwise. It returns a client or an error, never both
    and never neither. The connection is closed exactly when it was made and
    [New] failed on it, so no connection is left open behind an error and
    none is closed under a client. The client has no child process: [Close]
    on it closes the endpoint and at most waits for [Serve], with no timer,
    no kill and no wait for a process. *)
Theorem Dial_outcome (dflt : Context -> string -> string -> error + Conn)
    (new : Conn -> Logf -> error + Endpoint) (serving : ServeCh)
    (address : string) (options : list (Connect.DialOption Context Logf Conn)) :
  let r := Dial' dflt new serving address options in
  let dos :=
    fold_left (fun dos do => do dos) options
      {| Connect.d_ctx := Background; Connect.d_logf := log_Printf;
         Connect.netDial := dflt; Connect.d_serve := true |} in
  let network := if Connect.contains_colon address then "tcp" else "unix" in
  (network = "tcp" <-> exists a b, address = a +:+ String ":" b)
  /\ (exists rest,
        r.1 = Connect.Dialed (Connect.d_ctx dos) network address :: rest
        /\ forall c n a, Connect.Dialed c n a ∉ rest)
  /\ (forall c,
        Connect.ConnClose c ∈ r.1
        <-> Connect.netDial dos (Connect.d_ctx dos) network address = inr c
            /\ exists e, new c (Connect.d_logf dos) = inl e)
  /\ match r.2 with
     | (Some v, err) =>
         err = None
         /\ (forall c, Connect.ConnClose c ∉ r.1)
         /\ child_started v = false
         /\ serveCh v = (if Connect.d_serve dos then Some serving else None)
         /\ (Close v).1
            = EpClose :: match serveCh v with
                         | Some (Reports _) => [ReceiveServe]
                         | Some Silent => [After 10]
                         | None => []
                         end
     | (None, err) =>
         err <> None
         /\ ((exists c, Connect.ConnClose c ∈ r.1)
             \/ exists e, Connect.netDial dos (Connect.d_ctx dos) network address
                          = inl e /\ err = Some e)
     end.
Proof.
  intros r dos network. split.
  { rewrite <- contains_colon_spec. unfold network.
    destruct (Connect.contains_colon address); split; congruence. }
  unfold r, Connect.Dial. fold dos. fold network.
  clearbody dos network. clear r.
  destruct (Connect.netDial dos (Connect.d_ctx dos) network address)
    as [e1 | c1] eqn:H1;
    [| destruct (new c1 (Connect.d_logf dos)) as [e2 | e2] eqn:H2]; cbn.
  - split; [exists []; conn_solve |]. conn_solve.
  - split; [exists [Connect.ConnClose c1]; conn_solve |].
    split.
    + intros c. rewrite !elem_of_cons, elem_of_nil. split.
      * intros [H | [H | []]]; [discriminate H |]. injection H as ->. eauto.
      * intros [H _]. injection H as ->. auto.
    + conn_solve. left. exists c1. rewrite !elem_of_cons. auto.
  - split; [exists []; conn_solve |]. conn_solve.
    destruct (Connect.d_serve dos); [destruct serving |]; reflexivity.
Qed.

End ConnectProperties.

Lemma ChildProcessServe_last_wins_witness :
  let before := [Connect.ChildProcessServe (Context := unit) (Logf := unit) true] in
  let after := [Connect.ChildProcessArgs ["--embed"]; Connect.ChildProcessCommand "nvim";
                Connect.ChildProcessDir "/tmp"] in
  let w := {| Connect.StdinPipe := None; Connect.StdoutPipe := None;
              Connect.Start := None;
              Connect.New := fun _ : unit => inr (peer (inr validation_failure));
              Connect.child := Exits None; Connect.serving := Reports None |} in
  let options := before ++ Connect.ChildProcessServe false :: after in
  Forall (fun o => forall cpos, Connect.serve (o cpos) = Connect.serve cpos) after
  /\ Connect.serve (Connect.apply_options tt tt options) = false
  /\ (Connect.StartServe ∈ (Connect.NewChildProcess tt tt options w).1 -> false = true)
  /\ forall v err,
       (Connect.NewChildProcess tt tt options w).2 = Returned (Some v, err) ->
       serveCh v = None
       /\ (Connect.StartServe ∈ (Connect.NewChildProcess tt tt options w).1
           <-> false = true).
Proof.
  intros before after w options.
  assert (H : Forall (fun o => forall cpos, Connect.serve (o cpos) = Connect.serve cpos)
                after)
    by (repeat (constructor; [reflexivity |]); constructor).
  split; [exact H |].
  exact (ChildProcessServe_last_wins unit unit tt tt before after false w H).
Defined.
